(** * masoria-lang: the line-oriented script parser of [src/parser.ts]

    A shallow embedding of the parser and the properties of its
    specification.  JavaScript strings are sequences of UTF-16 code
    units; the development covers the scripts whose code units are below
    256 (Latin-1), so a code unit is an [ascii] and a string a [string].
    On that range the white space of [String.prototype.trim] and of the
    regular-expression class [\s] is {9, 10, 11, 12, 13, 32, 160}, and
    [toLowerCase] moves A-Z and the accented capitals 192-222 (215
    excepted) up by 32.

    A thrown exception is a value of [error]; the functions that can
    throw return [result]. *)

From Stdlib Require Import String Ascii ZArith QArith Lia List Bool.
From stdpp Require Import base option list strings gmap.

Local Close Scope Q_scope.
Local Open Scope nat_scope.
Local Open Scope string_scope.
Local Open Scope list_scope.

(** ** JavaScript string primitives *)

Module Js.

Definition code (c : ascii) : N := N_of_ascii c.

(** [WhiteSpace] and [LineTerminator] code points below 256: what
    [trim] strips and what [\s] matches. *)
Definition isWhiteSpace (c : ascii) : bool :=
  let n := code c in
  (((9 <=? n) && (n <=? 13)) || (n =? 32) || (n =? 160))%N.

Definition lowerChar (c : ascii) : ascii :=
  let n := code c in
  if (((65 <=? n) && (n <=? 90))
      || ((192 <=? n) && (n <=? 222) && negb (n =? 215)))%N
  then ascii_of_N (n + 32) else c.

(** [s.toLowerCase()] *)
Fixpoint toLowerCase (s : string) : string :=
  match s with
  | EmptyString => EmptyString
  | String c s' => String (lowerChar c) (toLowerCase s')
  end.

(** [s.trimStart()] *)
Fixpoint trimStart (s : string) : string :=
  match s with
  | EmptyString => EmptyString
  | String c s' => if isWhiteSpace c then trimStart s' else s
  end.

(** [s.trimEnd()] *)
Fixpoint trimEnd (s : string) : string :=
  match s with
  | EmptyString => EmptyString
  | String c s' =>
      match trimEnd s' with
      | EmptyString => if isWhiteSpace c then EmptyString else String c EmptyString
      | r => String c r
      end
  end.

(** [s.trim()] *)
Definition trim (s : string) : string := trimEnd (trimStart s).

(** [s.startsWith(p)] *)
Definition startsWith (p s : string) : bool := String.prefix p s.

(** [s.split(sep)] for a separator of one code unit: one more segment
    than there are separators, and the empty segment alone for the
    empty string. *)
Fixpoint split (sep : ascii) (s : string) : list string :=
  match s with
  | EmptyString => [EmptyString]
  | String c s' =>
      if Ascii.eqb c sep then EmptyString :: split sep s'
      else match split sep s' with
           | [] => [String c EmptyString]
           | seg :: segs => String c seg :: segs
           end
  end.

(** [s.includes(c)] for a pattern of one code unit. *)
Fixpoint includes (c : ascii) (s : string) : bool :=
  match s with
  | EmptyString => false
  | String d s' => Ascii.eqb d c || includes c s'
  end.

(** [s.indexOf(c)] for a pattern of one code unit; [-1] when absent. *)
Fixpoint indexOf (c : ascii) (s : string) : Z :=
  match s with
  | EmptyString => (-1)%Z
  | String d s' =>
      if Ascii.eqb d c then 0%Z
      else let i := indexOf c s' in
           if (i <? 0)%Z then (-1)%Z else (i + 1)%Z
  end.

Fixpoint drop (n : nat) (s : string) : string :=
  match n, s with
  | O, _ => s
  | S n', String _ s' => drop n' s'
  | S _, EmptyString => EmptyString
  end.

Fixpoint take (n : nat) (s : string) : string :=
  match n, s with
  | S n', String c s' => String c (take n' s')
  | _, _ => EmptyString
  end.

Definition clamp (len : nat) (i : Z) : nat :=
  Z.to_nat (Z.min (Z.max i 0) (Z.of_nat len)).

(** [s.substring(a, b)]: both bounds are clamped to [0, length] and
    swapped when the first exceeds the second. *)
Definition substring (a b : Z) (s : string) : string :=
  let a' := clamp (String.length s) a in
  let b' := clamp (String.length s) b in
  let lo := Nat.min a' b' in
  let hi := Nat.max a' b' in
  take (hi - lo) (drop lo s).

(** [s.replace(pat, rep)] for a string pattern: the first occurrence
    only.  (The call sites pass the empty replacement, which holds no
    dollar pattern.) *)
Fixpoint replace (pat rep s : string) : string :=
  if String.prefix pat s then rep ++ drop (String.length pat) s
  else match s with
       | EmptyString => EmptyString
       | String c s' => String c (replace pat rep s')
       end.

(** [s.replace(/\s+/g, SPACE)]: every maximal run of white space becomes
    one space; [inRun] says that the previous code unit was white
    space. *)
Fixpoint collapseWs (inRun : bool) (s : string) : string :=
  match s with
  | EmptyString => EmptyString
  | String c s' =>
      if isWhiteSpace c
      then if inRun then collapseWs true s'
           else String " " (collapseWs true s')
      else String c (collapseWs false s')
  end.

(** The length of the match of the anchored white-space-run pattern of
    [isIndentationLevelCorrect]: the leading white space. *)
Fixpoint leadingWs (s : string) : nat :=
  match s with
  | EmptyString => 0
  | String c s' => if isWhiteSpace c then S (leadingWs s') else 0
  end.

(** Truthiness of a possibly undefined string: defined and not empty. *)
Definition truthy (o : option string) : bool :=
  match o with
  | Some (String _ _) => true
  | _ => false
  end.

End Js.

(** ** Data model *)

Record Dialogue := mkDialogue {
  character : string;
  emotion : string;
  text : string;
}.

Record Choice := mkChoice {
  choiceLabel : string;
  targetScene : string;
}.

(** An optional field is an [option]; [None] is [undefined]. *)
Record Scene := mkScene {
  label : string;
  nextScene : option string;
  previousScene : option string;
  isEndingScene : bool;
  dialogues : list Dialogue;
  choices : option (list Choice);
  condition : option string;
}.

(** [emotions] is a plain object used as a map from emotion name to
    path: a finite map over its own properties. *)
Record Character := mkCharacter {
  name : string;
  emotions : gmap string string;
}.

Record ParserResult := mkParserResult {
  scenes : list Scene;
  characters : list Character;
}.

Module Keyword.
Inductive t := Scene | Choice | EndingScene | Emotion | UseEmotion | Character.

Definition text (k : t) : string :=
  match k with
  | Scene => "scene"
  | Choice => "choice"
  | EndingScene => "ending scene"
  | Emotion => "emotion"
  | UseEmotion => "use emotion"
  | Character => "character"
  end.
End Keyword.

(** ** Exceptions *)

(** The five [Error]s the parser throws itself, and the [TypeError] the
    runtime throws when a method is called on [undefined]. *)
Inductive error :=
| ForbiddenInlineScene
| ForbiddenInlineCharacter
| ChoiceOutsideScene
| ChoiceMissingTarget
| EmotionOutsideCharacter
| EmotionMissingPath
| TypeError.

Inductive result (A : Type) :=
| Ok (a : A)
| Throw (e : error).
Arguments Ok {A} a.
Arguments Throw {A} e.

Definition isOk {A} (r : result A) : bool :=
  match r with Ok _ => true | Throw _ => false end.

#[global] Instance result_ret : MRet result := fun _ a => Ok a.
#[global] Instance result_bind : MBind result := fun _ _ f r =>
  match r with
  | Ok a => f a
  | Throw e => Throw e
  end.

(** ** The helpers of [parser.ts] *)

(** [line.replace(/\s+/g, SPACE).trim()] *)
Definition removeExtraSpaces (line : string) : string :=
  Js.trim (Js.collapseWs false line).

(** [script.split(NEWLINE).filter((line) => line.trim().length > 0)] *)
Definition getLines (script : string) : list string :=
  List.filter (fun line => (0 <? String.length (Js.trim line))%nat)
    (Js.split "010" script).

(** [spaces % 2 === 0 && spaces / 4 === level].  The quotient of two
    numbers is not truncated, so it is taken in [Q]. *)
Definition isIndentationLevelCorrect (line : string) (level : nat) : bool :=
  let spaces := Js.leadingWs line in
  ((spaces mod 2 =? 0)%nat
   && Qeq_bool (Z.of_nat spaces # 4) (inject_Z (Z.of_nat level)))%bool.

Definition hasKeyword (keyword : Keyword.t) (line : string) (level : nat) : bool :=
  let hasKey :=
    Js.startsWith (Keyword.text keyword) (Js.trim (Js.toLowerCase line)) in
  if hasKey then isIndentationLevelCorrect line level else false.

(** [const [_instruction, text] = line.split(COLON)]: [text] is the
    second segment, [undefined] when the line has no colon, and then
    [text.trim()] throws. *)
Definition hasForbiddenInline (line : string) : result bool :=
  match Js.split ":" line !! 1 with
  | None => Throw TypeError
  | Some text => Ok (0 <? String.length (Js.trim text))%nat
  end.

(** The returned record has the key [string] and, when the argument
    holds a [<], the key [parameter]. *)
Definition getParameter (string : String.string)
  : String.string * option String.string :=
  if negb (Js.includes "<" string) then (string, None)
  else
    let parameter :=
      Js.substring (Js.indexOf "<" string + 1) (Js.indexOf ">" string) string in
    (Js.replace ("<" ++ parameter ++ ">") "" string, Some parameter).

Definition makeScene (line : string) : result Scene :=
  forbidden ← hasForbiddenInline line;
  if forbidden : bool then Throw ForbiddenInlineScene
  else
    let tokens := Js.split " " (removeExtraSpaces line) in
    match tokens !! 1 with
    | None => Throw TypeError
    | Some labelCondition =>
        let labelCondition := Js.replace ":" "" labelCondition in
        let '(label, parameter) := getParameter labelCondition in
        let pointedScene := tokens !! 3 in
        Ok {| label := label;
              isEndingScene := false;
              condition := parameter;
              dialogues := [];
              nextScene :=
                if Js.truthy pointedScene
                then Js.replace ":" "" <$> pointedScene else None;
              previousScene := None;
              choices := None |}
    end.

Definition makeCharacter (line : string) : result Character :=
  forbidden ← hasForbiddenInline line;
  if forbidden : bool then Throw ForbiddenInlineCharacter
  else
    match Js.split " " (removeExtraSpaces line) !! 1 with
    | None => Throw TypeError
    | Some name => Ok {| name := Js.replace ":" "" name; emotions := ∅ |}
    end.

(** [obj[key] = value] on an object created by an object literal.  An
    [undefined] key is converted to the string [undefined]; the key
    [__proto__] reaches the setter inherited from [Object.prototype],
    which ignores a string value and creates no property. *)
Definition propertyKey (key : option string) : string :=
  default "undefined" key.

Definition setProperty (key : option string) (value : string)
    (obj : gmap string string) : gmap string string :=
  if String.eqb (propertyKey key) "__proto__" then obj
  else <[propertyKey key := value]> obj.

(** [currentScene.choices.push(choice)], or [currentScene.choices =
    [choice]] when the scene has no [choices] yet. *)
Definition pushChoice (choice : Choice) (scene : Scene) : Scene :=
  {| label := scene.(label);
     nextScene := scene.(nextScene);
     previousScene := scene.(previousScene);
     isEndingScene := scene.(isEndingScene);
     dialogues := scene.(dialogues);
     choices :=
       match scene.(choices) with
       | Some cs => Some (cs ++ [choice])
       | None => Some [choice]
       end;
     condition := scene.(condition) |}.

(** [addChoice] changes the open scene in place; here it returns the
    changed scene.  [!targetScene] holds of [undefined] and of the empty
    string. *)
Definition addChoice (line : string) (currentScene : option Scene)
  : result Scene :=
  match currentScene with
  | None => Throw ChoiceOutsideScene
  | Some currentScene =>
      let parts := Js.split ":" line in
      match parts !! 0 with
      | None => Throw TypeError
      | Some instruction =>
          let targetScene := (getParameter instruction).2 in
          match targetScene with
          | Some (String c t) =>
              match parts !! 1 with
              | None => Throw TypeError
              | Some label =>
                  Ok (pushChoice {| choiceLabel := Js.trim label;
                                    targetScene := String c t |}
                        currentScene)
              end
          | _ => Throw ChoiceMissingTarget
          end
      end
  end.

(** [addEmotion] changes the open character in place; here it returns
    the changed character.  [!emotionPath] holds of [undefined] and of
    the empty string. *)
Definition addEmotion (line : string) (currentCharacter : option Character)
  : result Character :=
  match currentCharacter with
  | None => Throw EmotionOutsideCharacter
  | Some currentCharacter =>
      let parts := Js.split ":" line in
      let instruction := default "" (parts !! 0) in
      let emotionPath := parts !! 1 in
      let emotionName := Js.split " " (removeExtraSpaces instruction) !! 1 in
      match emotionPath with
      | Some (String c p) =>
          Ok {| name := currentCharacter.(name);
                emotions :=
                  setProperty emotionName (Js.trim (String c p))
                    currentCharacter.(emotions) |}
      | _ => Throw EmotionMissingPath
      end
  end.

(** ** The reference reconciler *)

Record Reference := mkReference {
  parent : string;
  refChoices : list string;
}.

(** [array.includes(x)] on an array of strings. *)
Definition arrayIncludes (x : string) (l : list string) : bool :=
  existsb (String.eqb x) l.

(** The [reduce] of [organizeSceneRefs]: one reference per scene that
    has a [choices] array, in the order of the scenes. *)
Definition sceneReferences (scenes : list Scene) : list Reference :=
  fold_left
    (fun acc scene =>
       match scene.(choices) with
       | Some cs =>
           acc ++ [{| parent := scene.(label);
                      refChoices := map targetScene cs |}]
       | None => acc
       end)
    scenes [].

Definition setPreviousScene (p : option string) (scene : Scene) : Scene :=
  {| label := scene.(label);
     nextScene := scene.(nextScene);
     previousScene := p;
     isEndingScene := scene.(isEndingScene);
     dialogues := scene.(dialogues);
     choices := scene.(choices);
     condition := scene.(condition) |}.

Definition organizeSceneRefs (scenes : list Scene) : list Scene :=
  let references := sceneReferences scenes in
  map
    (fun scene =>
       let reference :=
         List.find (fun ref => arrayIncludes scene.(label) ref.(refChoices))
           references in
       setPreviousScene
         match reference with
         | Some ref => Some ref.(parent)
         | None => scene.(previousScene)
         end
         scene)
    scenes.

(** ** The accumulator loop of [main] *)

(** The local variables of [main]. *)
Record State := mkState {
  st_scenes : list Scene;
  st_characters : list Character;
  currentScene : option Scene;
  currentCharacter : option Character;
}.

Definition initial : State :=
  {| st_scenes := []; st_characters := [];
     currentScene := None; currentCharacter := None |}.

(** [arr.push(x)] when [x] is defined. *)
Definition pushOpen {A} (arr : list A) (x : option A) : list A :=
  match x with
  | Some a => arr ++ [a]
  | None => arr
  end.

Definition setNextScene (n : option string) (scene : Scene) : Scene :=
  {| label := scene.(label);
     nextScene := n;
     previousScene := scene.(previousScene);
     isEndingScene := scene.(isEndingScene);
     dialogues := scene.(dialogues);
     choices := scene.(choices);
     condition := scene.(condition) |}.

(** One turn of the [while] loop: the [switch (true)] takes the first
    case whose test holds, and no case when none does. *)
Definition step (st : State) (line : string) : result State :=
  if hasKeyword Keyword.Character line 0 then
    let characters := pushOpen st.(st_characters) st.(currentCharacter) in
    c ← makeCharacter line;
    Ok {| st_scenes := st.(st_scenes);
          st_characters := characters;
          currentScene := st.(currentScene);
          currentCharacter := Some c |}
  else if hasKeyword Keyword.Emotion line 1 then
    c ← addEmotion line st.(currentCharacter);
    Ok {| st_scenes := st.(st_scenes);
          st_characters := st.(st_characters);
          currentScene := st.(currentScene);
          currentCharacter := Some c |}
  else if hasKeyword Keyword.Scene line 0 then
    newScene ← makeScene line;
    match st.(currentScene) with
    | Some cur =>
        let cur' :=
          setNextScene
            (match cur.(nextScene) with
             | Some n => Some n
             | None => Some newScene.(label)
             end) cur in
        Ok {| st_scenes := st.(st_scenes) ++ [cur'];
              st_characters := st.(st_characters);
              currentScene :=
                Some (setPreviousScene (Some cur.(label)) newScene);
              currentCharacter := st.(currentCharacter) |}
    | None =>
        Ok {| st_scenes := st.(st_scenes);
              st_characters := st.(st_characters);
              currentScene := Some newScene;
              currentCharacter := st.(currentCharacter) |}
    end
  else if hasKeyword Keyword.Choice line 1 then
    s ← addChoice line st.(currentScene);
    Ok {| st_scenes := st.(st_scenes);
          st_characters := st.(st_characters);
          currentScene := Some s;
          currentCharacter := st.(currentCharacter) |}
  else Ok st.

(** The [while] loop: the lines are consumed first to last, and the
    first exception ends it. *)
Fixpoint loop (lines : list string) (st : State) : result State :=
  match lines with
  | [] => Ok st
  | line :: lines' => st' ← step st line; loop lines' st'
  end.

(** The flush after the loop and the reconciliation. *)
Definition finish (st : State) : ParserResult :=
  {| scenes := organizeSceneRefs (pushOpen st.(st_scenes) st.(currentScene));
     characters := pushOpen st.(st_characters) st.(currentCharacter) |}.

Definition main (script : string) : result ParserResult :=
  st ← loop (getLines script) initial;
  Ok (finish st).

(** ** Definitions for the statements

    Predicates, sample scripts and states that the lemmas below speak
    of; those that follow the words of the specification say so. *)

(** [p] owns a choice whose target is [l]. *)
Definition targets (p : Scene) (l : string) : Prop :=
  ∃ cs c, p.(choices) = Some cs ∧ c ∈ cs ∧ c.(targetScene) = l.

(** The same as a test: what the [find] of the reconciler asks of the
    reference of [p]. *)
Definition targetsb (l : string) (p : Scene) : bool :=
  match p.(choices) with
  | Some cs => arrayIncludes l (map targetScene cs)
  | None => false
  end.

(** The two scenes differ in [previousScene] at most. *)
Definition sameButPrevious (s s' : Scene) : Prop :=
  s'.(label) = s.(label)
  ∧ s'.(condition) = s.(condition)
  ∧ s'.(nextScene) = s.(nextScene)
  ∧ s'.(isEndingScene) = s.(isEndingScene)
  ∧ s'.(dialogues) = s.(dialogues)
  ∧ s'.(choices) = s.(choices).

(** The two scenes differ in [nextScene] at most, and in [choices] at
    most. *)
Definition sameButNext (s s' : Scene) : Prop :=
  s'.(label) = s.(label)
  ∧ s'.(condition) = s.(condition)
  ∧ s'.(previousScene) = s.(previousScene)
  ∧ s'.(isEndingScene) = s.(isEndingScene)
  ∧ s'.(dialogues) = s.(dialogues)
  ∧ s'.(choices) = s.(choices).

Definition sameButChoices (s s' : Scene) : Prop :=
  s'.(label) = s.(label)
  ∧ s'.(condition) = s.(condition)
  ∧ s'.(nextScene) = s.(nextScene)
  ∧ s'.(previousScene) = s.(previousScene)
  ∧ s'.(isEndingScene) = s.(isEndingScene)
  ∧ s'.(dialogues) = s.(dialogues).

(** The choices of a scene after one more choice is pushed. *)
Definition choicesWith (old : option (list Choice)) (choice : Choice)
  : option (list Choice) :=
  match old with
  | Some cs => Some (cs ++ [choice])
  | None => Some [choice]
  end.

(** The references, scene by scene. *)
Fixpoint referencesOf (scenes : list Scene) : list Reference :=
  match scenes with
  | [] => []
  | scene :: scenes' =>
      match scene.(choices) with
      | Some cs =>
          {| parent := scene.(label); refChoices := map targetScene cs |}
          :: referencesOf scenes'
      | None => referencesOf scenes'
      end
  end.

(** The line feed and the tab as strings of one code unit. *)
Definition nl : string := String "010" EmptyString.

Definition tab : string := String "009" EmptyString.

(** Scenes A, B and C in that order, A owning a choice to C. *)
Definition scriptABC : string :=
  "scene A:" ++ nl ++
  "    choice<C>: Go to C" ++ nl ++
  "scene B:" ++ nl ++
  "scene C:".

(** The scenes of a script after the accumulator pass: those pushed in
    the loop and the one still open at its end. *)
Definition accumulated (script : string) : result (list Scene) :=
  st ← loop (getLines script) initial;
  Ok (pushOpen st.(st_scenes) st.(currentScene)).

(** A scene with a label and nothing else. *)
Definition bare (label : string) : Scene :=
  {| label := label; nextScene := None; previousScene := None;
     isEndingScene := false; dialogues := []; choices := None;
     condition := None |}.

(** The scenes of [scriptABC] after the accumulator pass. *)
Definition accumulatedABC : list Scene :=
  [ {| label := "A"; nextScene := Some "B"; previousScene := None;
       isEndingScene := false; dialogues := [];
       choices := Some [{| choiceLabel := "Go to C"; targetScene := "C" |}];
       condition := None |};
    setNextScene (Some "C") (setPreviousScene (Some "A") (bare "B"));
    setPreviousScene (Some "B") (bare "C") ].

(** A scene declared with the explicit successor Z and followed at once
    by scene B. *)
Definition scriptAZ : string := "scene A -> Z:" ++ nl ++ "scene B:".

(** The same two declarations written without their colons. *)
Definition scriptAZbare : string := "scene A -> Z" ++ nl ++ "scene B".

(** Scene A with the declared successor Z, and the state in which it is
    open and nothing is pushed. *)
Definition sceneAZ : Scene :=
  {| label := "A"; nextScene := Some "Z"; previousScene := None;
     isEndingScene := false; dialogues := []; choices := None;
     condition := None |}.

Definition openAZ : State :=
  {| st_scenes := []; st_characters := [];
     currentScene := Some sceneAZ; currentCharacter := None |}.

(** What may follow the second segment of a line: nothing, or a further
    colon and anything. *)
Definition segmentEnd (rest : string) : Prop :=
  rest = "" ∨ ∃ r, rest = String ":" r.


(** A state with the scene A open and nothing pushed. *)
Definition openA : State :=
  {| st_scenes := []; st_characters := [];
     currentScene := Some (bare "A"); currentCharacter := None |}.

(** Scene A with the given choices and nothing else. *)
Definition sceneAChoices (cs : list Choice) : Scene :=
  {| label := "A"; nextScene := None; previousScene := None;
     isEndingScene := false; dialogues := []; choices := Some cs;
     condition := None |}.


(** The state with another open scene, and with another open
    character. *)
Definition withScene (st : State) (s : Scene) : State :=
  {| st_scenes := st.(st_scenes);
     st_characters := st.(st_characters);
     currentScene := Some s;
     currentCharacter := st.(currentCharacter) |}.

(** Following the words of the specification: the text after the colon
    of a line, all of it from the first colon on; [None] when the line
    has no colon. *)
Fixpoint afterColon (line : string) : option string :=
  match line with
  | EmptyString => None
  | String c line' => if Ascii.eqb c ":" then Some line' else afterColon line'
  end.

(** Scripts with one block and one entry line. *)
Definition scriptEmotionNoPath : string :=
  "character Bob:" ++ nl ++ "    emotion happy:".

Definition withCharacter (st : State) (c : Character) : State :=
  {| st_scenes := st.(st_scenes);
     st_characters := st.(st_characters);
     currentScene := st.(currentScene);
     currentCharacter := Some c |}.

(** A state with the character Bob open and nothing pushed. *)
Definition openBob : State :=
  {| st_scenes := []; st_characters := [];
     currentScene := None;
     currentCharacter := Some {| name := "Bob"; emotions := ∅ |} |}.

Definition scriptChoiceTwoColons : string :=
  "scene A:" ++ nl ++ "    choice<B>: Go: now".

Definition scriptChoiceNoTarget : string :=
  "scene A:" ++ nl ++ "    choice: Go".

Definition scriptEmotionTwoColons : string :=
  "character Bob:" ++ nl ++ "    emotion happy: a:b".

(** The number of lines that pass the test of a keyword at level 0. *)
Definition statements (k : Keyword.t) (lines : list string) : nat :=
  length (List.filter (fun line => hasKeyword k line 0) lines).

(** What the flush after the loop will push: one for an open block. *)
Definition openCount {A} (x : option A) : nat :=
  match x with
  | Some _ => 1
  | None => 0
  end.

(** The scenes and the characters that a state stands for, pushed or
    open. *)
Definition pending (st : State) : nat * nat :=
  (length (pushOpen st.(st_scenes) st.(currentScene)),
   length (pushOpen st.(st_characters) st.(currentCharacter))).

(** ** Definitions for the further properties *)

(** The line passes one of the four tests of the [switch] of [main]. *)
Definition recognized (line : string) : bool :=
  hasKeyword Keyword.Character line 0
  || hasKeyword Keyword.Emotion line 1
  || hasKeyword Keyword.Scene line 0
  || hasKeyword Keyword.Choice line 1.

(** The result of a script without any block. *)
Definition emptyResult : ParserResult := {| scenes := []; characters := [] |}.

(** A script of two lines that pass no test. *)
Definition scriptNotes : string := "a note" ++ nl ++ "  ending scene fin:".

(** What the reconciler does to one scene of the scenes it is given. *)
Definition reconciled (scenes : list Scene) (scene : Scene) : Scene :=
  setPreviousScene
    match List.find (targetsb scene.(label)) scenes with
    | Some p => Some p.(label)
    | None => scene.(previousScene)
    end scene.

(** The five ways in which a turn of the loop ends without an
    exception, by the case of the [switch] that is taken. *)
Inductive stepped (st : State) (line : string) : State → Prop :=
| stepped_character c :
    hasKeyword Keyword.Character line 0 = true →
    makeCharacter line = Ok c →
    stepped st line
      {| st_scenes := st.(st_scenes);
         st_characters := pushOpen st.(st_characters) st.(currentCharacter);
         currentScene := st.(currentScene);
         currentCharacter := Some c |}
| stepped_emotion c0 c :
    hasKeyword Keyword.Emotion line 1 = true →
    st.(currentCharacter) = Some c0 →
    addEmotion line (Some c0) = Ok c →
    stepped st line (withCharacter st c)
| stepped_scene_first new :
    hasKeyword Keyword.Scene line 0 = true →
    st.(currentScene) = None →
    makeScene line = Ok new →
    stepped st line (withScene st new)
| stepped_scene_next cur new :
    hasKeyword Keyword.Scene line 0 = true →
    st.(currentScene) = Some cur →
    makeScene line = Ok new →
    stepped st line
      {| st_scenes :=
           st.(st_scenes)
           ++ [setNextScene
                 (match cur.(nextScene) with
                  | Some n => Some n
                  | None => Some new.(label)
                  end) cur];
         st_characters := st.(st_characters);
         currentScene := Some (setPreviousScene (Some cur.(label)) new);
         currentCharacter := st.(currentCharacter) |}
| stepped_choice cur s :
    hasKeyword Keyword.Choice line 1 = true →
    st.(currentScene) = Some cur →
    addChoice line (Some cur) = Ok s →
    stepped st line (withScene st s)
| stepped_ignored :
    recognized line = false →
    stepped st line st.

(** The scenes that a state stands for: those pushed and the open
    one. *)
Definition accumulatedOf (st : State) : list Scene :=
  pushOpen st.(st_scenes) st.(currentScene).

(** The choice that a choice line adds to the open scene, whichever
    scene that is. *)
Definition choiceOf (line : string) (choice : Choice) : Prop :=
  ∀ cur, addChoice line (Some cur) = Ok (pushChoice choice cur).

(** How the scenes of the state change in one turn of the loop. *)
Inductive grows (line : string) : list Scene → list Scene → Prop :=
| grows_same L :
    hasKeyword Keyword.Scene line 0 = false →
    hasKeyword Keyword.Choice line 1 = false →
    grows line L L
| grows_first new :
    hasKeyword Keyword.Scene line 0 = true →
    makeScene line = Ok new →
    grows line [] [new]
| grows_next A cur new :
    hasKeyword Keyword.Scene line 0 = true →
    makeScene line = Ok new →
    grows line (A ++ [cur])
      (A ++ [setNextScene
               (match cur.(nextScene) with
                | Some n => Some n
                | None => Some new.(label)
                end) cur;
             setPreviousScene (Some cur.(label)) new])
| grows_choice A cur choice :
    hasKeyword Keyword.Choice line 1 = true →
    choice.(targetScene) ≠ "" →
    choiceOf line choice →
    grows line (A ++ [cur]) (A ++ [pushChoice choice cur]).

(** No scene is pushed before one is open. *)
Definition noOrphans (st : State) : Prop :=
  st.(currentScene) = None → st.(st_scenes) = [].

(** A scene as the parser leaves it: it is no ending scene, it has no
    dialogue, and its choices, when it has any, are at least one and
    have a target each. *)
Definition sceneWf (s : Scene) : Prop :=
  s.(isEndingScene) = false
  ∧ s.(dialogues) = []
  ∧ match s.(choices) with
    | Some cs => cs ≠ [] ∧ Forall (fun c => c.(targetScene) ≠ "") cs
    | None => True
    end.

(** The label, the condition and the two links of a scene. *)
Record Skeleton := mkSkeleton {
  sk_label : string;
  sk_condition : option string;
  sk_next : option string;
  sk_previous : option string;
}.

Definition skeleton (s : Scene) : Skeleton :=
  {| sk_label := s.(label); sk_condition := s.(condition);
     sk_next := s.(nextScene); sk_previous := s.(previousScene) |}.

(** What chaining makes of scenes built one by one from the scene
    statements: each keeps its label and its condition; its successor
    is the declared one, or else the label of the scene that follows, or
    else none; its predecessor is the label of the scene before, none
    for the first. *)
Fixpoint chained (prev : option string) (built : list Scene)
  : list Skeleton :=
  match built with
  | [] => []
  | s0 :: rest =>
      {| sk_label := s0.(label);
         sk_condition := s0.(condition);
         sk_next :=
           match s0.(nextScene) with
           | Some n => Some n
           | None => label <$> head rest
           end;
         sk_previous := prev |}
      :: chained (Some s0.(label)) rest
  end.

(** The scene statements of a script, in their order, and the scene
    that [makeScene] builds from one. *)
Definition sceneStatements (lines : list string) : list string :=
  List.filter (fun line => hasKeyword Keyword.Scene line 0) lines.

Definition builtBy (line : string) (s0 : Scene) : Prop :=
  makeScene line = Ok s0.

(** All the choices of the scenes, scene after scene. *)
Definition allChoices (L : list Scene) : list Choice :=
  flat_map (fun s => default [] s.(choices)) L.

(** How the characters of the state, pushed and open, change in one
    turn of the loop. *)
Inductive growsCharacters (line : string)
  : list Character → list Character → Prop :=
| growsCharacters_same L :
    hasKeyword Keyword.Character line 0 = false →
    hasKeyword Keyword.Emotion line 1 = false →
    growsCharacters line L L
| growsCharacters_open L c :
    hasKeyword Keyword.Character line 0 = true →
    makeCharacter line = Ok c →
    growsCharacters line L (L ++ [c])
| growsCharacters_emotion A c0 c :
    hasKeyword Keyword.Emotion line 1 = true →
    addEmotion line (Some c0) = Ok c →
    growsCharacters line (A ++ [c0]) (A ++ [c]).

(** A script with a character block between two scene blocks. *)
Definition scriptMixed : string :=
  "scene A<hasKey>:" ++ nl ++
  "    choice<B>: Go on" ++ nl ++
  "character Bob:" ++ nl ++
  "    emotion happy: bob/happy.png" ++ nl ++
  "    choice<C>: Stay" ++ nl ++
  "scene B -> A:" ++ nl ++
  "scene C:".

(** A scene of a result agrees with a skeleton: on the label, the
    condition and the successor, and on the predecessor when no choice
    of the scenes [result] targets the scene. *)
Definition agrees (result : list Scene) (s : Scene) (k : Skeleton) : Prop :=
  s.(label) = k.(sk_label)
  ∧ s.(condition) = k.(sk_condition)
  ∧ s.(nextScene) = k.(sk_next)
  ∧ ((∀ p, p ∈ result → ¬ targets p s.(label)) →
     s.(previousScene) = k.(sk_previous)).

(** The choice statements and the character statements of a script, in
    their order. *)
Definition choiceStatements (lines : list string) : list string :=
  List.filter (fun line => hasKeyword Keyword.Choice line 1) lines.

Definition characterStatements (lines : list string) : list string :=
  List.filter (fun line => hasKeyword Keyword.Character line 0) lines.

(** The character has the name that [makeCharacter] reads off the
    line. *)
Definition namedBy (line : string) (c : Character) : Prop :=
  ∃ c0, makeCharacter line = Ok c0 ∧ c.(name) = c0.(name).

(** The key and the path that [addEmotion] reads off a line: the second
    token of the normalized first segment, as a property key, and the
    trimmed second segment; nothing when the second segment is missing
    or empty. *)
Definition emotionEntry (line : string) : option (string * string) :=
  let parts := Js.split ":" line in
  let instruction := default "" (parts !! 0) in
  let emotionName := Js.split " " (removeExtraSpaces instruction) !! 1 in
  match parts !! 1 with
  | Some (String c p) => Some (propertyKey emotionName, Js.trim (String c p))
  | _ => None
  end.

(** Every entry of the emotions of the character is read off one of
    the lines. *)
Definition entriesFrom (lines : list string) (c : Character) : Prop :=
  ∀ key path,
    c.(emotions) !! key = Some path →
    ∃ line, line ∈ lines
      ∧ hasKeyword Keyword.Emotion line 1 = true
      ∧ emotionEntry line = Some (key, path).

(** The lines that touch the characters, and those that touch the
    scenes. *)
Definition characterSide (line : string) : bool :=
  hasKeyword Keyword.Character line 0 || hasKeyword Keyword.Emotion line 1.

Definition sceneSide (line : string) : bool :=
  hasKeyword Keyword.Scene line 0 || hasKeyword Keyword.Choice line 1.

(** A state without its characters, and without its scenes. *)
Definition sceneOnly (st : State) : State :=
  {| st_scenes := st.(st_scenes); st_characters := [];
     currentScene := st.(currentScene); currentCharacter := None |}.

Definition characterOnly (st : State) : State :=
  {| st_scenes := []; st_characters := st.(st_characters);
     currentScene := None; currentCharacter := st.(currentCharacter) |}.

(** The characters that a state stands for: those pushed and the open
    one. *)
Definition charactersOf (st : State) : list Character :=
  pushOpen st.(st_characters) st.(currentCharacter).

(** Strings without any white space, and strings of white space only. *)
Fixpoint noWs (s : string) : bool :=
  match s with
  | EmptyString => true
  | String c s' => negb (Js.isWhiteSpace c) && noWs s'
  end.

Fixpoint allWs (s : string) : bool :=
  match s with
  | EmptyString => true
  | String c s' => Js.isWhiteSpace c && allWs s'
  end.

(** [words.join(SPACE)] *)
Fixpoint unwords (words : list string) : string :=
  match words with
  | [] => ""
  | [w] => w
  | w :: rest => w ++ " " ++ unwords rest
  end.

(** A line as a sequence of words, each followed by a gap. *)
Fixpoint spaced (items : list (string * string)) : string :=
  match items with
  | [] => ""
  | (w, g) :: rest => w ++ g ++ spaced rest
  end.

Definition isWord (w : string) : Prop := w ≠ "" ∧ noWs w = true.

(** The words are words, the gaps are white space, and no gap but the
    last is empty. *)
Fixpoint itemsOk (items : list (string * string)) : Prop :=
  match items with
  | [] => True
  | (w, g) :: rest =>
      isWord w ∧ allWs g = true ∧ (rest ≠ [] → g ≠ "") ∧ itemsOk rest
  end.

(** The space that the last gap leaves behind the last word. *)
Definition lastGap (items : list (string * string)) : string :=
  match last items with
  | Some (_, String _ _) => " "
  | _ => ""
  end.

(** The text of a scene statement: the label, an optional condition
    between angle brackets, an optional pointer to a target, and the
    colon. *)
Definition condText (cond : option string) : string :=
  match cond with
  | Some c => "<" ++ c ++ ">"
  | None => ""
  end.

Definition pointerText (target : option string) : string :=
  match target with
  | Some t => " -> " ++ t
  | None => ""
  end.

Definition sceneStatement (label : string) (cond target : option string)
  : string :=
  "scene " ++ label ++ condText cond ++ pointerText target ++ ":".

Definition characterStatement (name : string) : string :=
  "character " ++ name ++ ":".

(** A name that can stand in a statement: a word without colon. *)
Definition isName (w : string) : Prop :=
  isWord w ∧ Js.includes ":" w = false.

(** A script whose character statement carries text after its colon. *)
Definition scriptCharacterInline : string :=
  "scene A:" ++ nl ++ "character Bob: the hero".

(** ** Facts about the string primitives *)

Section StringFacts.

Implicit Types (s p q : string) (c : ascii).

Lemma split_nonempty c s : ∃ seg segs, Js.split c s = seg :: segs.
Proof.
  induction s as [|d s IH]; simpl; [by eauto|].
  destruct (Ascii.eqb d c); [by eauto|].
  destruct IH as (seg & segs & ->). by eauto.
Qed.

(** A string without the separator is its own single segment. *)
Lemma split_absent c s : Js.includes c s = false → Js.split c s = [s].
Proof.
  induction s as [|d s IH]; simpl; [done|].
  destruct (Ascii.eqb d c); simpl; [done|].
  intros H. by rewrite (IH H).
Qed.

(** The first segment ends at the first separator. *)
Lemma split_app c s1 s2 :
  Js.includes c s1 = false →
  Js.split c (s1 ++ String c s2) = s1 :: Js.split c s2.
Proof.
  induction s1 as [|d s1 IH]; simpl.
  - intros _. by rewrite Ascii.eqb_refl.
  - destruct (Ascii.eqb d c); simpl; [done|].
    intros H. by rewrite (IH H).
Qed.

(** Two prefixes of one string are prefixes of one another. *)
Lemma prefix_common s : ∀ p q,
  String.prefix p s = true → String.prefix q s = true →
  String.prefix p q = true ∨ String.prefix q p = true.
Proof.
  induction s as [|d s IH]; intros [|a p] [|b q]; simpl; auto; try done.
  destruct (ascii_dec a d) as [Ha|]; [|done].
  destruct (ascii_dec b d) as [Hb|]; [|done].
  destruct (ascii_dec a b), (ascii_dec b a); try congruence. apply IH.
Qed.

Lemma length_append s1 s2 :
  String.length (s1 ++ s2) = String.length s1 + String.length s2.
Proof. induction s1; simpl; auto. Qed.

Lemma drop_app s1 s2 : Js.drop (String.length s1) (s1 ++ s2) = s2.
Proof. induction s1; simpl; auto. Qed.

Lemma take_app s1 s2 : Js.take (String.length s1) (s1 ++ s2) = s1.
Proof.
  induction s1 as [|d s1 IH]; simpl.
  - by destruct s2.
  - by rewrite IH.
Qed.

Lemma prefix_app p s : String.prefix p (p ++ s) = true.
Proof.
  induction p as [|a p IH]; simpl; [by destruct s|].
  by destruct (ascii_dec a a).
Qed.

Lemma includes_app c s1 s2 :
  Js.includes c (s1 ++ s2) = Js.includes c s1 || Js.includes c s2.
Proof.
  induction s1 as [|d s1 IH]; simpl; [done|].
  by rewrite IH, orb_assoc.
Qed.

Lemma indexOf_absent c s : Js.includes c s = false → Js.indexOf c s = (-1)%Z.
Proof.
  induction s as [|d s IH]; simpl; [done|].
  destruct (Ascii.eqb d c); simpl; [done|].
  intros H. by rewrite (IH H).
Qed.

(** The index of the first occurrence. *)
Lemma indexOf_app c s1 s2 :
  Js.includes c s1 = false →
  Js.indexOf c (s1 ++ String c s2) = Z.of_nat (String.length s1).
Proof.
  induction s1 as [|d s1 IH]; simpl.
  - intros _. by rewrite Ascii.eqb_refl.
  - destruct (Ascii.eqb d c); simpl; [done|].
    intros H. rewrite (IH H).
    destruct (Z.ltb_spec (Z.of_nat (String.length s1)) 0); lia.
Qed.

End StringFacts.

(** ** Facts about the classifier *)

Section Classifier.

Implicit Types (line : string) (level : nat) (k : Keyword.t).

(** The quotient [spaces / 4] equals the level exactly when the
    leading white space is four code units per level. *)
Lemma isIndentationLevelCorrect_spec line level :
  isIndentationLevelCorrect line level = true ↔
  Js.leadingWs line = 4 * level.
Proof.
  unfold isIndentationLevelCorrect.
  rewrite andb_true_iff, Nat.eqb_eq.
  rewrite Qeq_bool_iff. unfold Qeq, inject_Z; simpl Qnum; simpl Qden.
  split.
  - intros [_ H]. lia.
  - intros H. split; [|lia].
    rewrite H. replace (4 * level) with (level * 2 * 2) by lia.
    apply Nat.Div0.mod_mul.
Qed.

Lemma hasKeyword_spec k line level :
  hasKeyword k line level = true ↔
  Js.startsWith (Keyword.text k) (Js.trim (Js.toLowerCase line)) = true
  ∧ Js.leadingWs line = 4 * level.
Proof.
  unfold hasKeyword. rewrite <- isIndentationLevelCorrect_spec.
  destruct (Js.startsWith _ _); [tauto|].
  split; [done|]. by intros [? _].
Qed.

(** A line passes the test of two keywords only when the text of one
    begins with the text of the other. *)
Lemma hasKeyword_two k1 k2 line l1 l2 :
  hasKeyword k1 line l1 = true → hasKeyword k2 line l2 = true →
  String.prefix (Keyword.text k1) (Keyword.text k2) = true
  ∨ String.prefix (Keyword.text k2) (Keyword.text k1) = true.
Proof.
  rewrite !hasKeyword_spec. intros [H1 _] [H2 _].
  eapply prefix_common; eauto.
Qed.

Lemma hasKeyword_exclusive k1 k2 line l1 l2 :
  String.prefix (Keyword.text k1) (Keyword.text k2) = false →
  String.prefix (Keyword.text k2) (Keyword.text k1) = false →
  hasKeyword k1 line l1 = true → hasKeyword k2 line l2 = false.
Proof.
  intros N1 N2 H1. destruct (hasKeyword k2 line l2) eqn:H2; [|done].
  destruct (hasKeyword_two _ _ _ _ _ H1 H2); congruence.
Qed.

End Classifier.

(** The case that [step] takes, by the keyword the line passes. *)
Section Dispatch.

Variables (st : State) (line : string).

Lemma step_character :
  hasKeyword Keyword.Character line 0 = true →
  step st line =
    (c ← makeCharacter line;
     Ok {| st_scenes := st.(st_scenes);
           st_characters := pushOpen st.(st_characters) st.(currentCharacter);
           currentScene := st.(currentScene);
           currentCharacter := Some c |}).
Proof. intros H. unfold step. by rewrite H. Qed.

Lemma step_emotion :
  hasKeyword Keyword.Emotion line 1 = true →
  step st line =
    (c ← addEmotion line st.(currentCharacter);
     Ok {| st_scenes := st.(st_scenes);
           st_characters := st.(st_characters);
           currentScene := st.(currentScene);
           currentCharacter := Some c |}).
Proof.
  intros H. unfold step.
  rewrite (hasKeyword_exclusive Keyword.Emotion Keyword.Character line 1 0)
    by done.
  by rewrite H.
Qed.

Lemma step_scene :
  hasKeyword Keyword.Scene line 0 = true →
  step st line =
    (newScene ← makeScene line;
     match st.(currentScene) with
     | Some cur =>
         Ok {| st_scenes :=
                 st.(st_scenes)
                 ++ [setNextScene
                       (match cur.(nextScene) with
                        | Some n => Some n
                        | None => Some newScene.(label)
                        end) cur];
               st_characters := st.(st_characters);
               currentScene :=
                 Some (setPreviousScene (Some cur.(label)) newScene);
               currentCharacter := st.(currentCharacter) |}
     | None =>
         Ok {| st_scenes := st.(st_scenes);
               st_characters := st.(st_characters);
               currentScene := Some newScene;
               currentCharacter := st.(currentCharacter) |}
     end).
Proof.
  intros H. unfold step.
  rewrite (hasKeyword_exclusive Keyword.Scene Keyword.Character line 0 0)
    by done.
  rewrite (hasKeyword_exclusive Keyword.Scene Keyword.Emotion line 0 1)
    by done.
  by rewrite H.
Qed.

Lemma step_choice :
  hasKeyword Keyword.Choice line 1 = true →
  step st line =
    (s ← addChoice line st.(currentScene);
     Ok {| st_scenes := st.(st_scenes);
           st_characters := st.(st_characters);
           currentScene := Some s;
           currentCharacter := st.(currentCharacter) |}).
Proof.
  intros H. unfold step.
  rewrite (hasKeyword_exclusive Keyword.Choice Keyword.Character line 1 0)
    by done.
  rewrite (hasKeyword_exclusive Keyword.Choice Keyword.Emotion line 1 1)
    by done.
  rewrite (hasKeyword_exclusive Keyword.Choice Keyword.Scene line 1 0)
    by done.
  by rewrite H.
Qed.

Lemma step_ignored :
  hasKeyword Keyword.Character line 0 = false →
  hasKeyword Keyword.Emotion line 1 = false →
  hasKeyword Keyword.Scene line 0 = false →
  hasKeyword Keyword.Choice line 1 = false →
  step st line = Ok st.
Proof. intros H1 H2 H3 H4. unfold step. by rewrite H1, H2, H3, H4. Qed.

End Dispatch.

(** ** Facts about the loop *)

Section Loop.

Implicit Types (st : State) (lines pre post : list string) (line : string).

Lemma loop_app pre post st :
  loop (pre ++ post) st = (st' ← loop pre st; loop post st').
Proof.
  revert st. induction pre as [|l pre IH]; intros st; simpl; [done|].
  destruct (step st l) as [st'|e]; simpl; [apply IH|done].
Qed.

(** The first exception ends the loop, whatever follows. *)
Lemma loop_throw pre line post st0 st e :
  loop pre st0 = Ok st → step st line = Throw e →
  loop (pre ++ line :: post) st0 = Throw e.
Proof.
  intros Hpre Hstep. rewrite loop_app, Hpre. simpl. by rewrite Hstep.
Qed.

Lemma main_throw script pre line post st e :
  getLines script = pre ++ line :: post →
  loop pre initial = Ok st → step st line = Throw e →
  main script = Throw e.
Proof.
  intros Hl Hpre Hstep. unfold main.
  by rewrite Hl, (loop_throw _ _ _ _ _ _ Hpre Hstep).
Qed.

(** A line on which [step] throws in every state makes the loop
    throw. *)
Lemma loop_throw_any lines line :
  (∀ st, isOk (step st line) = false) → line ∈ lines →
  ∀ st, isOk (loop lines st) = false.
Proof.
  intros Hline. induction lines as [|l lines IH]; intros Hin st.
  - by apply elem_of_nil in Hin.
  - apply elem_of_cons in Hin as [<-|Hin]; simpl.
    + specialize (Hline st). by destruct (step st line).
    + destruct (step st l); simpl; [by apply IH|done].
Qed.

(** A scene that was pushed stays where it is, as it is. *)
Lemma step_st_scenes st line st' :
  step st line = Ok st' → ∃ ext, st'.(st_scenes) = st.(st_scenes) ++ ext.
Proof.
  unfold step. intros H.
  repeat case_match; simplify_eq/=;
    repeat match goal with
      | H : mbind _ ?r = Ok _ |- _ => destruct r eqn:?; simplify_eq/=
      end;
    repeat case_match; simplify_eq/=;
    solve [by exists [] ; rewrite app_nil_r | by eexists].
Qed.

Lemma loop_st_scenes lines st st' :
  loop lines st = Ok st' → ∃ ext, st'.(st_scenes) = st.(st_scenes) ++ ext.
Proof.
  revert st. induction lines as [|l lines IH]; intros st; simpl.
  - intros [= <-]. exists []. by rewrite app_nil_r.
  - destruct (step st l) as [st1|] eqn:Hs; simpl; [|done].
    intros H. apply IH in H as [ext2 ->].
    apply step_st_scenes in Hs as [ext1 ->].
    exists (ext1 ++ ext2). by rewrite app_assoc.
Qed.

End Loop.

(** ** Facts about the reconciler *)

Section Reconciler.

Implicit Types (scenes : list Scene) (p scene : Scene) (l : string).

Lemma arrayIncludes_spec l (xs : list string) :
  arrayIncludes l xs = true ↔ l ∈ xs.
Proof.
  unfold arrayIncludes. rewrite existsb_exists. split.
  - intros (x & Hin & Heq). apply String.eqb_eq in Heq as ->.
    by apply list_elem_of_In.
  - intros Hin. exists l. split; [by apply list_elem_of_In|].
    apply String.eqb_refl.
Qed.

Lemma targetsb_spec l p : targetsb l p = true ↔ targets p l.
Proof.
  unfold targetsb, targets. destruct (choices p) as [cs|].
  - rewrite arrayIncludes_spec, list_elem_of_fmap. split.
    + intros (c & -> & Hc). by exists cs, c.
    + intros (cs' & c & [= <-] & Hc & <-). by exists c.
  - split; [done|]. by intros (? & ? & ? & _).
Qed.

Lemma targetsb_false l p : targetsb l p = false ↔ ¬ targets p l.
Proof.
  rewrite <- targetsb_spec. symmetry. apply not_true_iff_false.
Qed.

Lemma sceneReferences_eq scenes : sceneReferences scenes = referencesOf scenes.
Proof.
  unfold sceneReferences.
  enough (∀ acc,
    fold_left
      (fun acc scene =>
         match scene.(choices) with
         | Some cs =>
             acc ++ [{| parent := scene.(label);
                        refChoices := map targetScene cs |}]
         | None => acc
         end) scenes acc = acc ++ referencesOf scenes) as H by apply H.
  induction scenes as [|s scenes IH]; intros acc; simpl.
  - by rewrite app_nil_r.
  - rewrite IH. destruct (choices s); [|done].
    by rewrite <- app_assoc.
Qed.

(** The reference found for a label is that of the first scene that
    owns a choice to it. *)
Lemma find_reference l scenes :
  parent <$> List.find (fun ref => arrayIncludes l ref.(refChoices))
               (referencesOf scenes)
  = label <$> List.find (targetsb l) scenes.
Proof.
  induction scenes as [|s scenes IH]; simpl; [done|].
  unfold targetsb at 1. destruct (choices s) as [cs|]; simpl; [|done].
  by destruct (arrayIncludes l (map targetScene cs)).
Qed.

Lemma find_first {A} (f : A → bool) (xs : list A) : ∀ j x,
  xs !! j = Some x → f x = true →
  (∀ k y, k < j → xs !! k = Some y → f y = false) →
  List.find f xs = Some x.
Proof.
  induction xs as [|a xs IH]; intros j x Hj Hx Hbefore; [done|].
  destruct j as [|j]; simpl in *.
  - simplify_eq. by rewrite Hx.
  - rewrite (Hbefore 0 a) by (done || lia).
    apply (IH j); [done..|].
    intros k y Hk Hy. apply (Hbefore (S k)); [lia|done].
Qed.

Lemma find_absent {A} (f : A → bool) (xs : list A) :
  (∀ x, x ∈ xs → f x = false) → List.find f xs = None.
Proof.
  induction xs as [|a xs IH]; intros H; simpl; [done|].
  rewrite (H a) by apply list_elem_of_here.
  apply IH. intros x Hx. apply H. by apply list_elem_of_further.
Qed.

(** What the reconciler does to one scene. *)
Lemma organizeSceneRefs_lookup scenes i scene :
  scenes !! i = Some scene →
  organizeSceneRefs scenes !! i =
    Some (setPreviousScene
            match List.find (targetsb scene.(label)) scenes with
            | Some p => Some p.(label)
            | None => scene.(previousScene)
            end scene).
Proof.
  intros Hi. unfold organizeSceneRefs.
  rewrite list_lookup_fmap, Hi. simpl. do 2 f_equal.
  rewrite sceneReferences_eq.
  pose proof (find_reference scene.(label) scenes) as H.
  destruct (List.find _ (referencesOf scenes)),
    (List.find (targetsb _) scenes); simpl in H; congruence.
Qed.

Lemma setPreviousScene_same o scene :
  sameButPrevious scene (setPreviousScene o scene).
Proof. by repeat split. Qed.

Lemma organizeSceneRefs_length scenes :
  length (organizeSceneRefs scenes) = length scenes.
Proof. unfold organizeSceneRefs. apply length_map. Qed.

End Reconciler.

Section ReconcilerClaims.

Implicit Types (scenes : list Scene) (p scene : Scene) (l : string).

Lemma organizeSceneRefs_lookup_inv scenes i scene' :
  organizeSceneRefs scenes !! i = Some scene' →
  ∃ scene, scenes !! i = Some scene
    ∧ scene' = setPreviousScene
                 match List.find (targetsb scene.(label)) scenes with
                 | Some p => Some p.(label)
                 | None => scene.(previousScene)
                 end scene.
Proof.
  intros H. destruct (scenes !! i) as [scene|] eqn:Hi.
  - exists scene. split; [done|].
    rewrite (organizeSceneRefs_lookup _ _ _ Hi) in H. by simplify_eq.
  - apply lookup_ge_None in Hi.
    rewrite <- organizeSceneRefs_length in Hi.
    apply lookup_ge_None in Hi. congruence.
Qed.

Lemma targets_same s s' l : sameButPrevious s s' → targets s' l ↔ targets s l.
Proof. intros (_ & _ & _ & _ & _ & Hc). unfold targets. by rewrite Hc. Qed.

Lemma organizeSceneRefs_same scenes :
  Forall2 sameButPrevious scenes (organizeSceneRefs scenes).
Proof.
  apply Forall2_same_length_lookup. split.
  - by rewrite organizeSceneRefs_length.
  - intros i s s' Hs Hs'.
    rewrite (organizeSceneRefs_lookup _ _ _ Hs) in Hs'. simplify_eq.
    apply setPreviousScene_same.
Qed.

(** C10. The reconciler returns as many scenes as it is given, in the
    same order, and the scene at each position differs from the one it
    was given in [previousScene] at most: [label], [condition],
    [nextScene], [isEndingScene], [dialogues] and [choices] are the
    same. *)
Theorem organizeSceneRefs_frame scenes :
  length (organizeSceneRefs scenes) = length scenes
  ∧ Forall2 sameButPrevious scenes (organizeSceneRefs scenes).
Proof.
  split; [apply organizeSceneRefs_length|apply organizeSceneRefs_same].
Qed.

(** C1. In the scenes the reconciler returns, a scene whose label is
    the target of a choice of some returned scene has for
    [previousScene] the label of the first returned scene that owns
    such a choice; a scene whose label no choice targets keeps the
    [previousScene] that the scene at its position had before the
    pass. *)
Theorem organizeSceneRefs_precedence scenes i scene'
    (Hi : organizeSceneRefs scenes !! i = Some scene') :
  (∀ j p', organizeSceneRefs scenes !! j = Some p' →
           targets p' scene'.(label) →
           (∀ k q', k < j → organizeSceneRefs scenes !! k = Some q' →
                    ¬ targets q' scene'.(label)) →
           scene'.(previousScene) = Some p'.(label))
  ∧ ((∀ p', p' ∈ organizeSceneRefs scenes → ¬ targets p' scene'.(label)) →
     ∃ scene, scenes !! i = Some scene
       ∧ scene'.(previousScene) = scene.(previousScene)).
Proof.
  destruct (organizeSceneRefs_lookup_inv _ _ _ Hi) as (scene & Hs & ->).
  pose proof (organizeSceneRefs_same scenes) as Hframe.
  simpl. split.
  - intros j p' Hj Htarget Hfirst.
    destruct (organizeSceneRefs_lookup_inv _ _ _ Hj) as (p & Hp & Heq).
    assert (sameButPrevious p p') as Hpp' by (subst p'; apply setPreviousScene_same).
    rewrite (find_first (targetsb scene.(label)) scenes j p).
    + by destruct Hpp' as (-> & _).
    + done.
    + apply targetsb_spec. by apply (targets_same p p').
    + intros k q Hk Hq. apply targetsb_false.
      destruct (organizeSceneRefs scenes !! k) as [q'|] eqn:Hq'.
      * intros Hq_t. apply (Hfirst k q' Hk Hq').
        apply (targets_same q q'); [|done].
        eapply Forall2_lookup_lr; eauto.
      * apply lookup_ge_None in Hq'. rewrite organizeSceneRefs_length in Hq'.
        apply lookup_ge_None in Hq'. congruence.
  - intros Hnone. exists scene. split; [done|].
    rewrite find_absent; [done|].
    intros q Hq. apply targetsb_false.
    apply list_elem_of_lookup in Hq as [k Hk].
    destruct (organizeSceneRefs scenes !! k) as [q'|] eqn:Hq'.
    + intros Hq_t. apply (Hnone q').
      * apply list_elem_of_lookup. by exists k.
      * apply (targets_same q q'); [|done].
        eapply Forall2_lookup_lr; eauto.
    + apply lookup_ge_None in Hq'. rewrite organizeSceneRefs_length in Hq'.
      apply lookup_ge_None in Hq'. congruence.
Qed.

End ReconcilerClaims.

(** ** Sample scripts *)

Example accumulated_scriptABC : accumulated scriptABC = Ok accumulatedABC.
Proof. reflexivity. Qed.

(** With A, B, C declared in that order and A owning a choice to C, the
    chaining gives C the predecessor B and the reconciler replaces it by
    A. *)
Example main_scriptABC :
  main scriptABC = Ok {| scenes := organizeSceneRefs accumulatedABC;
                         characters := [] |}
  ∧ previousScene <$> accumulatedABC !! 2 = Some (Some "B")
  ∧ previousScene <$> organizeSceneRefs accumulatedABC !! 2 = Some (Some "A").
Proof. by vm_compute. Qed.

Lemma organizeSceneRefs_precedence_witness :
  ∃ scene', organizeSceneRefs accumulatedABC !! 2 = Some scene'
    ∧ scene'.(label) = "C"
    ∧ scene'.(previousScene) = Some "A".
Proof.
  eexists. split; [reflexivity|]. split; [reflexivity|].
  refine (proj1 (organizeSceneRefs_precedence accumulatedABC 2 _ eq_refl)
            0 _ eq_refl _ _).
  - eexists _, _. split; [reflexivity|].
    split; [apply list_elem_of_here|reflexivity].
  - intros k q' Hk. lia.
Defined.

(** ** The accumulator: chaining *)

Lemma finish_scene stEnd scenes0 s ext :
  stEnd.(st_scenes) = (scenes0 ++ [s]) ++ ext →
  ∃ s', (finish stEnd).(scenes) !! length scenes0 = Some s'
    ∧ sameButPrevious s s'.
Proof.
  intros Hs. unfold finish; simpl.
  assert (pushOpen stEnd.(st_scenes) stEnd.(currentScene) !! length scenes0
          = Some s) as Hlook.
  { rewrite Hs. unfold pushOpen.
    destruct (currentScene stEnd); rewrite <- !app_assoc; simpl;
      by apply list_lookup_middle. }
  rewrite (organizeSceneRefs_lookup _ _ _ Hlook).
  eexists. split; [done|]. apply setPreviousScene_same.
Qed.

(** C2. When a scene-start line is processed while a scene is open, the
    open scene is pushed with its own [nextScene] when it has one and
    with the label of the new scene otherwise, and with nothing else
    changed; the new scene becomes the open one, with the label of the
    pushed scene as [previousScene] and nothing else changed; and
    whatever lines follow, the scene at that position of the result has
    that label and that [nextScene].  The two declarations of the
    claim, [scene A -> Z] and [scene B], have no colon: on them the
    parse throws a [TypeError] before chaining is reached. *)
Theorem chaining_keeps_explicit_next st line cur newScene
    (Hkw : hasKeyword Keyword.Scene line 0 = true)
    (Hopen : st.(currentScene) = Some cur)
    (Hnew : makeScene line = Ok newScene) :
  let next :=
    match cur.(nextScene) with
    | Some n => Some n
    | None => Some newScene.(label)
    end in
  (∃ st' cur' new',
     step st line = Ok st'
     ∧ st'.(st_scenes) = st.(st_scenes) ++ [cur']
     ∧ st'.(currentScene) = Some new'
     ∧ st'.(st_characters) = st.(st_characters)
     ∧ st'.(currentCharacter) = st.(currentCharacter)
     ∧ cur'.(nextScene) = next
     ∧ sameButNext cur cur'
     ∧ new'.(previousScene) = Some cur.(label)
     ∧ sameButPrevious newScene new'
     ∧ ∀ rest stEnd, loop rest st' = Ok stEnd →
         ∃ s, (finish stEnd).(scenes) !! length st.(st_scenes) = Some s
           ∧ s.(label) = cur.(label)
           ∧ s.(nextScene) = next)
  ∧ makeScene "scene A -> Z" = Throw TypeError
  ∧ main scriptAZbare = Throw TypeError.
Proof.
  intros next. split; [|by split].
  rewrite (step_scene _ _ Hkw), Hnew, Hopen. simpl.
  eexists _, _, _. split; [reflexivity|]. simpl.
  do 4 (split; [reflexivity|]). split; [reflexivity|].
  split; [by repeat split|]. split; [reflexivity|].
  split; [by repeat split|].
  intros rest stEnd Hrest.
  apply loop_st_scenes in Hrest as [ext Hext]. simpl in Hext.
  destruct (finish_scene _ _ _ _ Hext) as (s' & Hs' & Hl & _ & Hn & _).
  exists s'. by rewrite Hl, Hn.
Qed.

(** With the colons in place the two declarations parse, and A keeps
    the successor it declares. *)
Example main_scriptAZ :
  main scriptAZ =
    Ok {| scenes :=
            [ {| label := "A"; nextScene := Some "Z"; previousScene := None;
                 isEndingScene := false; dialogues := []; choices := None;
                 condition := None |};
              {| label := "B"; nextScene := None; previousScene := Some "A";
                 isEndingScene := false; dialogues := []; choices := None;
                 condition := None |} ];
          characters := [] |}.
Proof. reflexivity. Qed.

Lemma chaining_keeps_explicit_next_witness :
  ∃ st' cur' new',
    step openAZ "scene B:" = Ok st'
    ∧ st'.(st_scenes) = [cur']
    ∧ st'.(currentScene) = Some new'
    ∧ cur'.(label) = "A" ∧ cur'.(nextScene) = Some "Z"
    ∧ new'.(label) = "B" ∧ new'.(previousScene) = Some "A"
    ∧ ∃ s, (finish st').(scenes) !! 0 = Some s
        ∧ s.(label) = "A" ∧ s.(nextScene) = Some "Z".
Proof.
  destruct (proj1 (chaining_keeps_explicit_next openAZ "scene B:"
              sceneAZ (bare "B") eq_refl eq_refl eq_refl))
    as (st' & cur' & new' & Hstep & Hsc & Hcur & _ & _ & Hn & Hsame & Hp
        & Hnew & Hend).
  exists st', cur', new'.
  destruct Hsame as (Hl & _). destruct Hnew as (Hl' & _).
  repeat split; try done.
  apply (Hend [] st' eq_refl).
Defined.

(** ** Declarations without a colon *)

Lemma hasForbiddenInline_colon_free line :
  Js.includes ":" line = false → hasForbiddenInline line = Throw TypeError.
Proof. intros H. unfold hasForbiddenInline. by rewrite (split_absent _ _ H). Qed.

Lemma main_throws_of_loop script :
  isOk (loop (getLines script) initial) = false → ∃ e, main script = Throw e.
Proof.
  unfold main. destruct (loop _ _) as [st|e]; [done|]. intros _. by exists e.
Qed.

(** C4. A line without any colon that is taken as a scene start or as a
    character start makes [hasForbiddenInline] call [trim] on
    [undefined]: neither builder returns, the turn of the loop throws in
    every state, and a script with such a line among its lines has no
    result. *)
Theorem colon_free_declaration_throws line
    (Hcolon : Js.includes ":" line = false)
    (Hdecl : hasKeyword Keyword.Scene line 0 = true
             ∨ hasKeyword Keyword.Character line 0 = true) :
  makeScene line = Throw TypeError
  ∧ makeCharacter line = Throw TypeError
  ∧ (∀ st, step st line = Throw TypeError)
  ∧ (∀ script, line ∈ getLines script → ∃ e, main script = Throw e).
Proof.
  assert (makeScene line = Throw TypeError) as Hs.
  { unfold makeScene. by rewrite hasForbiddenInline_colon_free. }
  assert (makeCharacter line = Throw TypeError) as Hc.
  { unfold makeCharacter. by rewrite hasForbiddenInline_colon_free. }
  assert (∀ st, step st line = Throw TypeError) as Hstep.
  { intros st. destruct Hdecl as [H|H].
    - by rewrite (step_scene _ _ H), Hs.
    - by rewrite (step_character _ _ H), Hc. }
  repeat split; try done.
  intros script Hin. apply main_throws_of_loop.
  apply (loop_throw_any _ line); [|done].
  intros st. by rewrite Hstep.
Qed.

Lemma colon_free_declaration_throws_witness :
  makeScene "scene intro" = Throw TypeError
  ∧ makeCharacter "scene intro" = Throw TypeError
  ∧ (∀ st, step st "scene intro" = Throw TypeError)
  ∧ (∀ script, "scene intro" ∈ getLines script → ∃ e, main script = Throw e).
Proof.
  apply (colon_free_declaration_throws "scene intro"); [reflexivity|].
  left. reflexivity.
Defined.

(** C3 (the parser on the lines of the specification).  The lines
    [scene intro<hasKey>] and [scene intro] have no colon: the parse of
    either throws a [TypeError] and yields no scene.  With the colon in
    place the scene has the label [intro], and the condition [hasKey] in
    the first case and none in the second. *)
Theorem scene_line_without_colon :
  main "scene intro<hasKey>" = Throw TypeError
  ∧ main "scene intro" = Throw TypeError
  ∧ makeScene "scene intro<hasKey>:"
    = Ok {| label := "intro"; nextScene := None; previousScene := None;
            isEndingScene := false; dialogues := []; choices := None;
            condition := Some "hasKey" |}
  ∧ makeScene "scene intro:" = Ok (bare "intro").
Proof. repeat split. Qed.

(** ** Parameter extraction *)

Section GetParameter.

Implicit Types (s pre param post : string).

Lemma append_cons d s1 s2 : (String d s1 ++ s2 = String d (s1 ++ s2))%string.
Proof. reflexivity. Qed.

Lemma append_assoc s1 s2 s3 : ((s1 ++ s2) ++ s3 = s1 ++ s2 ++ s3)%string.
Proof.
  induction s1 as [|d s1 IH]; [done|].
  rewrite !append_cons. f_equal. apply IH.
Qed.

Lemma substring_middle s1 s2 s3 :
  Js.substring (Z.of_nat (String.length s1))
    (Z.of_nat (String.length s1 + String.length s2)) (s1 ++ s2 ++ s3) = s2.
Proof.
  unfold Js.substring, Js.clamp. rewrite !length_append.
  rewrite !Z.max_l, !Z.min_l, !Nat2Z.id by lia.
  rewrite Nat.min_l, Nat.max_r by lia.
  replace (String.length s1 + String.length s2 - String.length s1)
    with (String.length s2) by lia.
  by rewrite drop_app, take_app.
Qed.

(** The first occurrence of a pattern that begins with a code unit
    absent from what precedes it. *)
Lemma replace_first c pat pre post :
  Js.includes c pre = false →
  Js.replace (String c pat) "" (pre ++ String c pat ++ post)
  = (pre ++ post)%string.
Proof.
  intros Hpre. induction pre as [|d pre IH].
  - change ("" ++ String c pat ++ post)%string
      with (String c pat ++ post)%string.
    destruct (String c pat ++ post)%string eqn:E; [done|].
    rewrite <- E. unfold Js.replace at 1. rewrite E at 1. rewrite <- E.
    rewrite prefix_app. fold Js.replace. by rewrite drop_app.
  - simpl in Hpre. apply orb_false_iff in Hpre as [Hd Hpre].
    simpl. destruct (ascii_dec c d) as [->|_].
    + by rewrite Ascii.eqb_refl in Hd.
    + by rewrite (IH Hpre).
Qed.

(** A token [pre<param>post], where [pre] holds neither angle bracket
    and [param] no closing one, splits into [pre ++ post] and [param]. *)
Lemma getParameter_token pre param post :
  Js.includes "<" pre = false → Js.includes ">" pre = false →
  Js.includes ">" param = false →
  getParameter (pre ++ "<" ++ param ++ ">" ++ post)
  = ((pre ++ post)%string, Some param).
Proof.
  intros Hlt Hgt Hparam. unfold getParameter.
  rewrite includes_app. simpl Js.includes at 2.
  rewrite orb_true_r. simpl negb. cbv iota.
  change (pre ++ "<" ++ param ++ ">" ++ post)%string
    with (pre ++ String "<" (param ++ String ">" post))%string.
  rewrite (indexOf_app "<" pre _ Hlt).
  assert (Js.indexOf ">" (pre ++ String "<" (param ++ String ">" post))
          = Z.of_nat (String.length pre + 1 + String.length param)) as ->.
  { change (pre ++ String "<" (param ++ String ">" post))%string
      with (pre ++ "<" ++ param ++ String ">" post)%string.
    rewrite <- (append_assoc "<"), <- append_assoc.
    rewrite indexOf_app.
    - rewrite !length_append. simpl. lia.
    - rewrite !includes_app, Hgt, Hparam. reflexivity. }
  assert (Js.substring (Z.of_nat (String.length pre) + 1)
            (Z.of_nat (String.length pre + 1 + String.length param))
            (pre ++ String "<" (param ++ String ">" post)) = param) as ->.
  { change (pre ++ String "<" (param ++ String ">" post))%string
      with (pre ++ "<" ++ param ++ String ">" post)%string.
    rewrite <- (append_assoc pre "<").
    replace (Z.of_nat (String.length pre) + 1)%Z
      with (Z.of_nat (String.length (pre ++ "<")))
      by (rewrite length_append; simpl; lia).
    replace (String.length pre + 1 + String.length param)
      with (String.length (pre ++ "<") + String.length param)
      by (rewrite length_append; simpl; lia).
    apply substring_middle. }
  f_equal.
  change ("<" ++ param ++ ">")%string with (String "<" (param ++ ">")).
  change (pre ++ String "<" (param ++ String ">" post))%string
    with (pre ++ String "<" (param ++ (">" ++ post)))%string.
  rewrite <- append_assoc.
  by apply replace_first.
Qed.

(** Without an opening bracket there is no parameter. *)
Lemma getParameter_none s : Js.includes "<" s = false → getParameter s = (s, None).
Proof. intros H. unfold getParameter. by rewrite H. Qed.

End GetParameter.

(** ** The two segments that the builders read *)

Section Segments.

Implicit Types (a b rest line : string).

Lemma split_segment b rest :
  Js.includes ":" b = false → segmentEnd rest →
  ∃ segs, Js.split ":" (b ++ rest) = b :: segs.
Proof.
  intros Hb [->|[r ->]].
  - exists []. assert (b ++ "" = b)%string as ->.
    { clear Hb. induction b as [|d b IH]; [done|].
      rewrite append_cons. by rewrite IH. }
    by apply split_absent.
  - eexists. by apply split_app.
Qed.

(** A line [a:b], or [a:b:...], has [a] and [b] for first and second
    segment. *)
Lemma split_two a b rest :
  Js.includes ":" a = false → Js.includes ":" b = false → segmentEnd rest →
  ∃ segs, Js.split ":" (a ++ ":" ++ b ++ rest) = a :: b :: segs.
Proof.
  intros Ha Hb Hrest.
  destruct (split_segment b rest Hb Hrest) as [segs Hsegs].
  exists segs.
  change (a ++ ":" ++ b ++ rest)%string with (a ++ String ":" (b ++ rest))%string.
  by rewrite (split_app _ _ _ Ha), Hsegs.
Qed.

(** The choice builder on a line [pre<target>post:label], possibly
    followed by a colon and more. *)
Lemma addChoice_line cur pre target post labelPart rest :
  Js.includes "<" pre = false → Js.includes ">" pre = false →
  Js.includes ":" pre = false →
  Js.includes ">" target = false → Js.includes ":" target = false →
  target ≠ "" →
  Js.includes ":" post = false →
  Js.includes ":" labelPart = false → segmentEnd rest →
  addChoice
    (pre ++ "<" ++ target ++ ">" ++ post ++ ":" ++ labelPart ++ rest)
    (Some cur)
  = Ok (pushChoice {| choiceLabel := Js.trim labelPart;
                      targetScene := target |} cur).
Proof.
  intros Hpre1 Hpre2 Hpre3 Ht1 Ht2 Ht Hpost Hlabel Hrest.
  assert (Js.includes ":" (pre ++ "<" ++ target ++ ">" ++ post) = false)
    as Hinstr.
  { rewrite !includes_app, Hpre3, Ht2, Hpost. reflexivity. }
  destruct (split_two _ labelPart rest Hinstr Hlabel Hrest) as [segs Hsegs].
  unfold addChoice.
  replace (pre ++ "<" ++ target ++ ">" ++ post ++ ":" ++ labelPart ++ rest)%string
    with ((pre ++ "<" ++ target ++ ">" ++ post)
          ++ ":" ++ labelPart ++ rest)%string
    by (by rewrite !append_assoc).
  rewrite Hsegs. simpl.
  rewrite (getParameter_token pre target post Hpre1 Hpre2 Ht1). simpl.
  by destruct target.
Qed.

(** The emotion builder on a line [instruction:path], possibly followed
    by a colon and more. *)
Lemma addEmotion_line c instruction path rest :
  Js.includes ":" instruction = false →
  Js.includes ":" path = false → segmentEnd rest →
  addEmotion (instruction ++ ":" ++ path ++ rest) (Some c)
  = match path with
    | "" => Throw EmotionMissingPath
    | _ =>
        Ok {| name := c.(name);
              emotions :=
                setProperty
                  (Js.split " " (removeExtraSpaces instruction) !! 1)
                  (Js.trim path) c.(emotions) |}
    end.
Proof.
  intros Hi Hp Hrest.
  destruct (split_two _ path rest Hi Hp Hrest) as [segs Hsegs].
  unfold addEmotion. rewrite Hsegs. simpl. by destruct path.
Qed.

End Segments.

(** ** Indentation *)

Lemma startsWith_exclusive k1 k2 s :
  String.prefix (Keyword.text k1) (Keyword.text k2) = false →
  String.prefix (Keyword.text k2) (Keyword.text k1) = false →
  Js.startsWith (Keyword.text k1) s = true →
  Js.startsWith (Keyword.text k2) s = false.
Proof.
  intros N1 N2 H1. destruct (Js.startsWith (Keyword.text k2) s) eqn:H2; [|done].
  destruct (prefix_common _ _ _ H1 H2); congruence.
Qed.

Lemma hasKeyword_other k1 k2 line level :
  String.prefix (Keyword.text k1) (Keyword.text k2) = false →
  String.prefix (Keyword.text k2) (Keyword.text k1) = false →
  Js.startsWith (Keyword.text k1) (Js.trim (Js.toLowerCase line)) = true →
  hasKeyword k2 line level = false.
Proof.
  intros N1 N2 H1. unfold hasKeyword.
  by rewrite (startsWith_exclusive k1 k2 _ N1 N2 H1).
Qed.




(** ** Fatal paths *)

Lemma afterColon_None line :
  afterColon line = None → Js.split ":" line !! 1 = None.
Proof.
  intros H. rewrite split_absent; [done|].
  induction line as [|c line IH]; simpl in *; [done|].
  destruct (Ascii.eqb c ":"); [done|]. by apply IH.
Qed.

Lemma afterColon_Some line r :
  afterColon line = Some r → Js.split ":" line !! 1 = head (Js.split ":" r).
Proof.
  induction line as [|c line IH]; simpl; [done|].
  destruct (Ascii.eqb c ":").
  - intros [= ->]. simpl. by destruct (Js.split ":" r).
  - intros H. specialize (IH H).
    destruct (split_nonempty ":" line) as (seg & segs & E).
    rewrite E in *. done.
Qed.

(** An emotion line whose text after the colon is missing or empty has
    no truthy path. *)
Lemma addEmotion_no_path line c :
  afterColon line = None ∨ afterColon line = Some "" →
  addEmotion line (Some c) = Throw EmotionMissingPath.
Proof.
  intros H. unfold addEmotion.
  assert (Js.split ":" line !! 1 = None ∨ Js.split ":" line !! 1 = Some "")
    as [->| ->]; [|done..].
  destruct H as [H|H]; [left; by apply afterColon_None|right].
  by rewrite (afterColon_Some _ _ H).
Qed.

Lemma makeScene_forbidden line text :
  Js.split ":" line !! 1 = Some text → Js.trim text ≠ "" →
  makeScene line = Throw ForbiddenInlineScene.
Proof.
  intros Hs Ht. unfold makeScene, hasForbiddenInline. rewrite Hs. simpl.
  by destruct (Js.trim text).
Qed.

(** C6.  The scene declaration [scene intro:: extra text] carries the
    text [: extra text] after its colon, a colon followed by text, and
    yet [hasForbiddenInline] answers false: it reads the segment
    between the first two colons only, which is empty.  The parse does
    not abort; it returns a scene of label [intro:] whose [nextScene]
    is [text].  With a single colon the same declaration aborts with
    the forbidden-inline error, and the two other fatal scenarios of
    the claim abort as it says. *)
Theorem doubled_colon_not_forbidden :
  hasKeyword Keyword.Scene "scene intro:: extra text" 0 = true
  ∧ afterColon "scene intro:: extra text" = Some ": extra text"
  ∧ Js.trim ": extra text" ≠ ""
  ∧ hasForbiddenInline "scene intro:: extra text" = Ok false
  ∧ main "scene intro:: extra text"
    = Ok {| scenes :=
              [ {| label := "intro:"; nextScene := Some "text";
                   previousScene := None; isEndingScene := false;
                   dialogues := []; choices := None; condition := None |} ];
            characters := [] |}
  ∧ main "scene intro: extra text" = Throw ForbiddenInlineScene
  ∧ main "    choice<C>: Go" = Throw ChoiceOutsideScene
  ∧ main scriptEmotionNoPath = Throw EmotionMissingPath.
Proof. by repeat split. Qed.

(** The fatal paths, in general.  Let the lines before [line] be
    processed without an exception and leave the state [st].  If [line] is a choice line and
    no scene is open, the parse throws the choice-outside-scene error.
    If it is an emotion line whose text after the colon is missing or
    empty, the parse throws the missing-path error when a character is
    open, and the emotion-outside-character error when none is.  If it
    is a scene start whose second colon-separated segment (the text
    between its first colon and the next one, or the end of the line)
    is not all white space, the parse throws the forbidden-inline
    error.  The parse then has no result. *)
Theorem fatal_paths script pre line post st
    (Hlines : getLines script = pre ++ line :: post)
    (Hpre : loop pre initial = Ok st) :
  (hasKeyword Keyword.Choice line 1 = true → st.(currentScene) = None →
   main script = Throw ChoiceOutsideScene)
  ∧ (hasKeyword Keyword.Emotion line 1 = true →
     afterColon line = None ∨ afterColon line = Some "" →
     main script = Throw match st.(currentCharacter) with
                         | Some _ => EmotionMissingPath
                         | None => EmotionOutsideCharacter
                         end)
  ∧ (hasKeyword Keyword.Scene line 0 = true →
     ∀ text, Js.split ":" line !! 1 = Some text → Js.trim text ≠ "" →
             main script = Throw ForbiddenInlineScene).
Proof.
  split; [|split].
  - intros Hkw Hnone. apply (main_throw _ _ _ _ _ _ Hlines Hpre).
    by rewrite (step_choice _ _ Hkw), Hnone.
  - intros Hkw Hpath. apply (main_throw _ _ _ _ _ _ Hlines Hpre).
    rewrite (step_emotion _ _ Hkw).
    destruct (currentCharacter st) as [c|]; [|done].
    by rewrite addEmotion_no_path.
  - intros Hkw text Hs Ht. apply (main_throw _ _ _ _ _ _ Hlines Hpre).
    by rewrite (step_scene _ _ Hkw), (makeScene_forbidden _ _ Hs Ht).
Qed.

Lemma fatal_paths_witness :
  main "    choice<C>: Go" = Throw ChoiceOutsideScene
  ∧ main scriptEmotionNoPath = Throw EmotionMissingPath
  ∧ main "scene intro: extra text" = Throw ForbiddenInlineScene.
Proof.
  split; [|split].
  - apply (proj1 (fatal_paths "    choice<C>: Go" [] _ [] initial
                    eq_refl eq_refl)); reflexivity.
  - apply (proj1 (proj2 (fatal_paths scriptEmotionNoPath
                           ["character Bob:"] "    emotion happy:" []
                           {| st_scenes := []; st_characters := [];
                              currentScene := None;
                              currentCharacter :=
                                Some {| name := "Bob"; emotions := ∅ |} |}
                           eq_refl eq_refl)));
      [reflexivity|right; reflexivity].
  - apply (proj2 (proj2 (fatal_paths "scene intro: extra text" [] _ []
                           initial eq_refl eq_refl))
             eq_refl " extra text" eq_refl).
    discriminate.
Defined.

(** ** Choice and emotion lines *)

Lemma loop_snoc pre line st0 st :
  loop pre st0 = Ok st → loop (pre ++ [line]) st0 = step st line.
Proof.
  intros Hpre. rewrite loop_app, Hpre. simpl.
  by destruct (step st line).
Qed.

Lemma addChoice_no_parameter line instruction cur :
  Js.split ":" line !! 0 = Some instruction →
  Js.includes "<" instruction = false →
  addChoice line (Some cur) = Throw ChoiceMissingTarget.
Proof.
  intros Hs Hi. unfold addChoice.
  by rewrite Hs, (getParameter_none _ Hi).
Qed.

(** C7, counterexample.  The claim as the specification words it fails
    on a label with a colon: the text after the first colon, trimmed,
    is [Go: now], and the label of the choice is [Go]. *)
Lemma choice_label_counterexample :
  hasKeyword Keyword.Choice "    choice<B>: Go: now" 1 = true
  ∧ Js.trim <$> afterColon "    choice<B>: Go: now" = Some "Go: now"
  ∧ step openA "    choice<B>: Go: now"
    = Ok (withScene openA
            (sceneAChoices [{| choiceLabel := "Go"; targetScene := "B" |}]))
  ∧ Some "Go" ≠ Js.trim <$> afterColon "    choice<B>: Go: now".
Proof. by repeat split. Qed.

(** C7, amended.  Let the lines before the choice line [line] be
    processed without an exception and leave a state with the scene
    [cur] open.  If the line is [before<target>after:label], followed
    by nothing or by a further colon and anything, where [before] holds
    no [<], [>] or colon, [target] is not empty and holds no [>] or
    colon, and [after] and [label] hold no colon, the loop goes on with
    the open scene holding its former choices followed by one more,
    whose [targetScene] is [target] and whose label is the trimmed
    [label], the second colon-separated segment of the line: the text
    between the first colon and the next one or the end of the line.
    Nothing else of the scene or of the state changes.  If the first
    segment holds no [<], the parse throws the missing-target error. *)
Theorem choice_line_decomposition script pre line post st cur
    (Hlines : getLines script = pre ++ line :: post)
    (Hpre : loop pre initial = Ok st)
    (Hkw : hasKeyword Keyword.Choice line 1 = true)
    (Hopen : st.(currentScene) = Some cur) :
  (∀ before target after labelPart rest,
     line = (before ++ "<" ++ target ++ ">" ++ after
             ++ ":" ++ labelPart ++ rest)%string →
     Js.includes "<" before = false → Js.includes ">" before = false →
     Js.includes ":" before = false →
     Js.includes ">" target = false → Js.includes ":" target = false →
     target ≠ "" →
     Js.includes ":" after = false →
     Js.includes ":" labelPart = false → segmentEnd rest →
     ∃ st' s',
       loop (pre ++ [line]) initial = Ok st'
       ∧ st'.(currentScene) = Some s'
       ∧ st'.(st_scenes) = st.(st_scenes)
       ∧ st'.(st_characters) = st.(st_characters)
       ∧ st'.(currentCharacter) = st.(currentCharacter)
       ∧ s'.(choices)
         = choicesWith cur.(choices)
             {| choiceLabel := Js.trim labelPart; targetScene := target |}
       ∧ sameButChoices cur s')
  ∧ (∀ instruction,
       Js.split ":" line !! 0 = Some instruction →
       Js.includes "<" instruction = false →
       main script = Throw ChoiceMissingTarget).
Proof.
  split.
  - intros before target after labelPart rest -> **.
    rewrite (loop_snoc _ _ _ _ Hpre), (step_choice _ _ Hkw), Hopen.
    rewrite addChoice_line by done. simpl.
    eexists _, _. split; [reflexivity|]. simpl.
    do 4 (split; [reflexivity|]). split; [reflexivity|by repeat split].
  - intros instruction Hs Hi. apply (main_throw _ _ _ _ _ _ Hlines Hpre).
    rewrite (step_choice _ _ Hkw), Hopen.
    by rewrite (addChoice_no_parameter _ _ _ Hs Hi).
Qed.

Lemma choice_line_decomposition_witness :
  (∃ st' s',
     loop (getLines scriptChoiceTwoColons) initial = Ok st'
     ∧ st'.(currentScene) = Some s'
     ∧ s'.(label) = "A"
     ∧ s'.(choices)
       = Some [{| choiceLabel := Js.trim " Go"; targetScene := "B" |}])
  ∧ main scriptChoiceNoTarget = Throw ChoiceMissingTarget.
Proof.
  split.
  - destruct (proj1 (choice_line_decomposition scriptChoiceTwoColons
                    ["scene A:"] "    choice<B>: Go: now" [] openA (bare "A")
                    eq_refl eq_refl eq_refl eq_refl)
             "    choice" "B" "" " Go" ": now"
             eq_refl eq_refl eq_refl eq_refl eq_refl eq_refl
             ltac:(discriminate) eq_refl eq_refl
             (or_intror (ex_intro _ " now" eq_refl)))
      as (st' & s' & Hloop & Hcur & _ & _ & _ & Hch & Hl & _).
    by exists st', s'.
  - apply (proj2 (choice_line_decomposition scriptChoiceNoTarget
                    ["scene A:"] "    choice: Go" [] openA (bare "A")
                    eq_refl eq_refl eq_refl eq_refl)
             "    choice"); reflexivity.
Defined.

(** C8, counterexample.  The claim as the specification words it fails
    on a path with a colon: the text after the first colon, trimmed, is
    [a:b], and the path recorded for the emotion is [a]. *)
Lemma emotion_path_counterexample :
  hasKeyword Keyword.Emotion "    emotion happy: a:b" 1 = true
  ∧ Js.trim <$> afterColon "    emotion happy: a:b" = Some "a:b"
  ∧ step openBob "    emotion happy: a:b"
    = Ok (withCharacter openBob
            {| name := "Bob"; emotions := <["happy" := "a"]> ∅ |})
  ∧ Some "a" ≠ Js.trim <$> afterColon "    emotion happy: a:b".
Proof. by repeat split. Qed.

(** C8, amended.  Let the lines before the emotion line [line] be
    processed without an exception and leave a state with the character
    [c] open, and let the line be [instruction:path], followed by
    nothing or by a further colon and anything, so that [path] is the
    second colon-separated segment.  If [path] is not empty and the
    second token of the normalized instruction is a name other than
    [__proto__], the loop goes on with the trimmed path recorded under
    that name in the emotions of [c], the other entries unchanged.  If
    [path] is empty, the parse throws the missing-path error; so it
    does when the line has no colon. *)
Theorem emotion_line_decomposition script pre line post st c
    (Hlines : getLines script = pre ++ line :: post)
    (Hpre : loop pre initial = Ok st)
    (Hkw : hasKeyword Keyword.Emotion line 1 = true)
    (Hopen : st.(currentCharacter) = Some c) :
  (∀ instruction path rest,
     line = (instruction ++ ":" ++ path ++ rest)%string →
     Js.includes ":" instruction = false →
     Js.includes ":" path = false → segmentEnd rest →
     (∀ emotionName,
        path ≠ "" →
        Js.split " " (removeExtraSpaces instruction) !! 1 = Some emotionName →
        emotionName ≠ "__proto__" →
        loop (pre ++ [line]) initial
        = Ok (withCharacter st
                {| name := c.(name);
                   emotions := <[emotionName := Js.trim path]> c.(emotions) |}))
     ∧ (path = "" → main script = Throw EmotionMissingPath))
  ∧ (Js.includes ":" line = false → main script = Throw EmotionMissingPath).
Proof.
  split.
  - intros instruction path rest -> Hi Hp Hrest. split.
    + intros emotionName Hpath Hname Hproto.
      rewrite (loop_snoc _ _ _ _ Hpre), (step_emotion _ _ Hkw), Hopen.
      rewrite (addEmotion_line _ _ _ _ Hi Hp Hrest), Hname.
      destruct path as [|d path]; [done|]. simpl.
      unfold withCharacter, setProperty. simpl.
      apply String.eqb_neq in Hproto. by rewrite Hproto.
    + intros ->. apply (main_throw _ _ _ _ _ _ Hlines Hpre).
      rewrite (step_emotion _ _ Hkw), Hopen.
      by rewrite (addEmotion_line _ _ _ _ Hi Hp Hrest).
  - intros Hcolon. apply (main_throw _ _ _ _ _ _ Hlines Hpre).
    rewrite (step_emotion _ _ Hkw), Hopen.
    unfold addEmotion. by rewrite (split_absent _ _ Hcolon).
Qed.

Lemma emotion_line_decomposition_witness :
  loop (getLines scriptEmotionTwoColons) initial
  = Ok (withCharacter openBob
          {| name := "Bob"; emotions := <["happy" := Js.trim " a"]> ∅ |})
  ∧ main scriptEmotionNoPath = Throw EmotionMissingPath.
Proof.
  split.
  - apply (proj1 (proj1 (emotion_line_decomposition scriptEmotionTwoColons
                    ["character Bob:"] "    emotion happy: a:b" [] openBob
                    {| name := "Bob"; emotions := ∅ |}
                    eq_refl eq_refl eq_refl eq_refl)
                   "    emotion happy" " a" ":b"
                   eq_refl eq_refl eq_refl (or_intror (ex_intro _ "b" eq_refl)))
             "happy"); [done|reflexivity|done].
  - apply (proj2 (proj1 (emotion_line_decomposition scriptEmotionNoPath
                    ["character Bob:"] "    emotion happy:" [] openBob
                    {| name := "Bob"; emotions := ∅ |}
                    eq_refl eq_refl eq_refl eq_refl)
                   "    emotion happy" "" ""
                   eq_refl eq_refl eq_refl (or_introl eq_refl))).
    reflexivity.
Defined.

(** ** Counting scenes and characters *)

Section Counts.

Implicit Types (st : State) (line : string) (lines : list string).

Lemma length_pushOpen {A} (arr : list A) (x : option A) :
  length (pushOpen arr x) = length arr + openCount x.
Proof.
  destruct x; simpl; [|lia]. rewrite length_app. simpl. lia.
Qed.

Local Ltac both_lia := apply pair_equal_spec; split; simpl; lia.

Lemma step_pending st line st' :
  step st line = Ok st' →
  pending st' =
    ((pending st).1 + (if hasKeyword Keyword.Scene line 0 then 1 else 0),
     (pending st).2 + (if hasKeyword Keyword.Character line 0 then 1 else 0)).
Proof.
  unfold pending. rewrite !length_pushOpen.
  destruct (hasKeyword Keyword.Character line 0) eqn:Hc.
  { rewrite (step_character _ _ Hc).
    rewrite (hasKeyword_exclusive Keyword.Character Keyword.Scene line 0 0)
      by done.
    destruct (makeCharacter line); simpl; [|done].
    intros [= <-]. simpl. rewrite length_pushOpen.
    both_lia. }
  destruct (hasKeyword Keyword.Emotion line 1) eqn:He.
  { rewrite (step_emotion _ _ He).
    rewrite (hasKeyword_exclusive Keyword.Emotion Keyword.Scene line 1 0)
      by done.
    destruct (currentCharacter st) as [c|] eqn:Hcur; [|done].
    destruct (addEmotion line (Some c)); simpl; [|done].
    intros [= <-]. simpl.
    both_lia. }
  destruct (hasKeyword Keyword.Scene line 0) eqn:Hs.
  { rewrite (step_scene _ _ Hs).
    destruct (makeScene line); simpl; [|done].
    destruct (currentScene st); intros [= <-]; simpl;
      rewrite ?length_app; simpl; both_lia. }
  destruct (hasKeyword Keyword.Choice line 1) eqn:Hch.
  { rewrite (step_choice _ _ Hch).
    destruct (currentScene st) as [s|] eqn:Hcur; [|done].
    destruct (addChoice line (Some s)); simpl; [|done].
    intros [= <-]. simpl.
    both_lia. }
  rewrite step_ignored by done. intros [= <-].
  both_lia.
Qed.

Lemma loop_pending lines : ∀ st st',
  loop lines st = Ok st' →
  pending st' =
    ((pending st).1 + statements Keyword.Scene lines,
     (pending st).2 + statements Keyword.Character lines).
Proof.
  unfold statements.
  induction lines as [|l lines IH]; intros st st'; simpl.
  - intros [= <-]. unfold pending. simpl. both_lia.
  - destruct (step st l) as [st1|] eqn:Hstep; simpl; [|done].
    intros Hloop. rewrite (IH _ _ Hloop), (step_pending _ _ _ Hstep). simpl.
    destruct (hasKeyword Keyword.Scene l 0),
      (hasKeyword Keyword.Character l 0); simpl; both_lia.
Qed.

(** C9. When the parse completes, the result holds as many scenes as
    there are lines that are scene statements at level 0, and as many
    characters as there are lines that are character statements at
    level 0. *)
Theorem scene_character_counts script r (Hok : main script = Ok r) :
  length r.(scenes) = statements Keyword.Scene (getLines script)
  ∧ length r.(characters) = statements Keyword.Character (getLines script).
Proof.
  unfold main in Hok.
  destruct (loop (getLines script) initial) as [st|] eqn:Hloop; [|done].
  simpl in Hok. injection Hok as <-.
  apply loop_pending in Hloop. unfold pending in Hloop. simpl in Hloop.
  injection Hloop as Hs Hc.
  unfold finish. simpl. by rewrite organizeSceneRefs_length.
Qed.

End Counts.

Lemma scene_character_counts_witness :
  ∃ r, main scriptABC = Ok r
    ∧ length r.(scenes) = 3 ∧ length r.(characters) = 0.
Proof.
  eexists. split; [reflexivity|].
  apply (scene_character_counts scriptABC). reflexivity.
Defined.

(** * Further properties of the parser *)

(** ** Lines *)

Lemma split_segment_free c s seg :
  seg ∈ Js.split c s → Js.includes c seg = false.
Proof.
  revert seg. induction s as [|d s IH]; intros seg; simpl.
  - intros H. apply list_elem_of_singleton in H. by subst.
  - destruct (Ascii.eqb d c) eqn:Hd.
    + intros H. apply elem_of_cons in H as [->|H]; [done|by apply IH].
    + destruct (split_nonempty c s) as (seg0 & segs & E). rewrite E in *.
      intros H. apply elem_of_cons in H as [->|H].
      * simpl. rewrite Hd. apply IH. apply list_elem_of_here.
      * apply IH. by apply list_elem_of_further.
Qed.

(** X1. Every line that [getLines] returns is free of line feeds and
    is not blank: its trimmed text is not empty. *)
Theorem getLines_lines script line (Hin : line ∈ getLines script) :
  Js.includes "010" line = false ∧ Js.trim line ≠ "".
Proof.
  unfold getLines in Hin. apply list_elem_of_In, filter_In in Hin as [Hs Ht].
  split.
  - apply (split_segment_free _ script). by apply list_elem_of_In.
  - intros E. rewrite E in Ht. done.
Qed.

Lemma getLines_lines_witness :
  Js.includes "010" "scene B:" = false ∧ Js.trim "scene B:" ≠ "".
Proof.
  apply (getLines_lines scriptAZ). unfold scriptAZ.
  apply list_elem_of_In. vm_compute. right. left. reflexivity.
Defined.

(** ** The classifier *)

(** X2. No line passes the test of two keywords, whatever the levels:
    the order of the cases of the [switch] of [main] is immaterial. *)
Theorem hasKeyword_at_most_one k1 k2 line l1 l2
    (Hne : k1 ≠ k2) (H1 : hasKeyword k1 line l1 = true) :
  hasKeyword k2 line l2 = false.
Proof.
  revert H1. apply hasKeyword_exclusive; by destruct k1, k2.
Qed.

Lemma hasKeyword_at_most_one_witness :
  hasKeyword Keyword.Emotion "    emotion happy: a.png" 1 = false
  ∨ hasKeyword Keyword.EndingScene "    emotion happy: a.png" 1 = false.
Proof.
  right.
  apply (hasKeyword_at_most_one Keyword.Emotion Keyword.EndingScene _ 1 1);
    [discriminate|reflexivity].
Defined.

Lemma lowerChar_idem c : Js.lowerChar (Js.lowerChar c) = Js.lowerChar c.
Proof. by destruct c as [[] [] [] [] [] [] [] []]. Qed.

Lemma isWhiteSpace_lowerChar c :
  Js.isWhiteSpace (Js.lowerChar c) = Js.isWhiteSpace c.
Proof. by destruct c as [[] [] [] [] [] [] [] []]. Qed.

Lemma toLowerCase_idem s : Js.toLowerCase (Js.toLowerCase s) = Js.toLowerCase s.
Proof.
  induction s as [|c s IH]; simpl; [done|]. by rewrite lowerChar_idem, IH.
Qed.

Lemma leadingWs_toLowerCase s : Js.leadingWs (Js.toLowerCase s) = Js.leadingWs s.
Proof.
  induction s as [|c s IH]; simpl; [done|].
  rewrite isWhiteSpace_lowerChar. by rewrite IH.
Qed.

(** X3. The test of a keyword does not see the case of the line: the
    line and its lower-case form pass the same tests.  (The builders
    read the line as it is written, so labels and names keep their
    case.) *)
Theorem hasKeyword_toLowerCase k line level :
  hasKeyword k (Js.toLowerCase line) level = hasKeyword k line level.
Proof.
  unfold hasKeyword, isIndentationLevelCorrect.
  by rewrite toLowerCase_idem, leadingWs_toLowerCase.
Qed.

(** ** Lines that the loop passes over *)

Lemma step_unrecognized st line : recognized line = false → step st line = Ok st.
Proof.
  unfold recognized. rewrite !orb_false_iff. intros [[[H1 H2] H3] H4].
  by apply step_ignored.
Qed.

Lemma loop_filter_recognized lines : ∀ st,
  loop (List.filter recognized lines) st = loop lines st.
Proof.
  induction lines as [|l lines IH]; intros st; simpl; [done|].
  destruct (recognized l) eqn:Hr; simpl.
  - destruct (step st l); simpl; [apply IH|done].
  - rewrite (step_unrecognized _ _ Hr). simpl. apply IH.
Qed.

(** X4. The lines that pass none of the four tests of the loop do not
    count: the loop ends in the same state, or with the same exception,
    when they are removed.  A script all of whose lines are such lines
    has the empty result. *)
Theorem unrecognized_lines_ignored :
  (∀ lines st, loop (List.filter recognized lines) st = loop lines st)
  ∧ (∀ script,
       (∀ line, line ∈ getLines script → recognized line = false) →
       main script = Ok emptyResult).
Proof.
  split; [intros; apply loop_filter_recognized|].
  intros script Hall. unfold main.
  rewrite <- loop_filter_recognized.
  assert (List.filter recognized (getLines script) = []) as ->; [|done].
  induction (getLines script) as [|l ls IH]; simpl; [done|].
  rewrite (Hall l) by apply list_elem_of_here.
  apply IH. intros line Hin. apply Hall. by apply list_elem_of_further.
Qed.

Lemma unrecognized_lines_ignored_witness : main scriptNotes = Ok emptyResult.
Proof.
  apply (proj2 unrecognized_lines_ignored).
  intros line Hin. apply list_elem_of_In in Hin. vm_compute in Hin.
  destruct Hin as [<-|[<-|[]]]; reflexivity.
Defined.

(** X5. The keywords [ending scene] and [use emotion] are declared and
    never dispatched on: a line that begins with either, whatever its
    case and its indentation, leaves the state as it is and throws
    nothing. *)
Theorem reserved_keywords_inert line st
    (Hkw : Js.startsWith (Keyword.text Keyword.EndingScene)
             (Js.trim (Js.toLowerCase line)) = true
           ∨ Js.startsWith (Keyword.text Keyword.UseEmotion)
               (Js.trim (Js.toLowerCase line)) = true) :
  step st line = Ok st.
Proof.
  destruct Hkw as [H|H]; apply step_ignored.
  1-4: by apply (hasKeyword_other Keyword.EndingScene).
  all: by apply (hasKeyword_other Keyword.UseEmotion).
Qed.

Lemma reserved_keywords_inert_witness :
  step openA "Ending Scene finale:" = Ok openA
  ∧ step openBob "    use emotion happy" = Ok openBob.
Proof.
  split; apply reserved_keywords_inert; [left|right]; reflexivity.
Defined.

(** ** Exceptions *)

Lemma includes_split c s :
  Js.includes c s = true → ∃ a b segs, Js.split c s = a :: b :: segs.
Proof.
  induction s as [|d s IH]; simpl; [done|].
  destruct (Ascii.eqb d c); simpl.
  - intros _. destruct (split_nonempty c s) as (seg & segs & ->). by eauto.
  - intros H. destruct (IH H) as (a & b & segs & ->). by eauto.
Qed.

(** X6. [hasForbiddenInline] throws on the lines without a colon, the
    empty line among them, and on no other line. *)
Theorem hasForbiddenInline_throws_iff line :
  isOk (hasForbiddenInline line) = Js.includes ":" line.
Proof.
  unfold hasForbiddenInline. destruct (Js.includes ":" line) eqn:H.
  - destruct (includes_split _ _ H) as (a & b & segs & ->). done.
  - by rewrite (split_absent _ _ H).
Qed.

Lemma loop_Throw_inv lines : ∀ st e,
  loop lines st = Throw e →
  ∃ pre line post st',
    lines = pre ++ line :: post
    ∧ loop pre st = Ok st' ∧ step st' line = Throw e.
Proof.
  induction lines as [|l lines IH]; intros st e; simpl; [done|].
  destruct (step st l) as [st1|e1] eqn:Hs; simpl.
  - intros H. destruct (IH _ _ H) as (pre & line & post & st' & -> & Hp & Hl).
    exists (l :: pre), line, post, st'. simpl. rewrite Hs. simpl. by repeat split.
  - intros [= ->]. exists [], l, lines, st. by repeat split.
Qed.

(** X7. The parse throws an exception exactly when some line throws it
    in the state that the lines before it, processed without an
    exception, leave: the first failing line decides, and the lines
    after it are never looked at. *)
Theorem main_throws_iff script e :
  main script = Throw e ↔
  ∃ pre line post st,
    getLines script = pre ++ line :: post
    ∧ loop pre initial = Ok st ∧ step st line = Throw e.
Proof.
  split.
  - unfold main. destruct (loop (getLines script) initial) eqn:H; [done|].
    simpl. intros [= ->]. by apply loop_Throw_inv.
  - intros (pre & line & post & st & Hl & Hp & Hs).
    by apply (main_throw _ _ _ _ _ _ Hl Hp Hs).
Qed.

Lemma main_throws_iff_witness :
  ∃ pre line post st,
    getLines "    choice<C>: Go" = pre ++ line :: post
    ∧ loop pre initial = Ok st ∧ step st line = Throw ChoiceOutsideScene.
Proof.
  apply (proj1 (main_throws_iff "    choice<C>: Go" ChoiceOutsideScene)).
  reflexivity.
Defined.

(** ** The reconciler, again *)

Section ReconcilerMore.

Implicit Types (scenes : list Scene) (p scene : Scene) (l : string).

Lemma organizeSceneRefs_map scenes :
  organizeSceneRefs scenes = map (reconciled scenes) scenes.
Proof.
  apply list_eq. intros i. rewrite list_lookup_fmap.
  destruct (scenes !! i) as [scene|] eqn:Hi; simpl.
  - by apply organizeSceneRefs_lookup.
  - apply lookup_ge_None. rewrite organizeSceneRefs_length.
    by apply lookup_ge_None.
Qed.

Lemma find_map {A B} (f : A → B) (q : B → bool) (xs : list A) :
  List.find q (map f xs) = f <$> List.find (fun x => q (f x)) xs.
Proof.
  induction xs as [|a xs IH]; simpl; [done|]. by destruct (q (f a)).
Qed.

Lemma find_ext {A} (q1 q2 : A → bool) (xs : list A) :
  (∀ x, q1 x = q2 x) → List.find q1 xs = List.find q2 xs.
Proof.
  intros H. induction xs as [|a xs IH]; simpl; [done|].
  by rewrite H, IH.
Qed.

Lemma setPreviousScene_own scene :
  setPreviousScene scene.(previousScene) scene = scene.
Proof. by destruct scene. Qed.

Lemma reconciled_reconciled scenes scene :
  reconciled (map (reconciled scenes) scenes) (reconciled scenes scene)
  = reconciled scenes scene.
Proof.
  unfold reconciled at 1. simpl. rewrite find_map.
  rewrite (find_ext _ (targetsb scene.(label))) by done.
  unfold reconciled at 2 3.
  by destruct (List.find (targetsb scene.(label)) scenes).
Qed.

(** X8. The reconciler is idempotent: a second pass over its result
    changes nothing. *)
Theorem organizeSceneRefs_idempotent scenes :
  organizeSceneRefs (organizeSceneRefs scenes) = organizeSceneRefs scenes.
Proof.
  rewrite (organizeSceneRefs_map scenes), organizeSceneRefs_map.
  rewrite map_map. apply map_ext. intros scene.
  apply reconciled_reconciled.
Qed.

(** X9. When no choice of the scenes targets the label of one of them
    (so when no scene has choices at all), the reconciler returns the
    scenes as they are: the predecessors set by chaining stay. *)
Theorem organizeSceneRefs_no_target scenes
    (Hnone : ∀ p scene, p ∈ scenes → scene ∈ scenes →
                        ¬ targets p scene.(label)) :
  organizeSceneRefs scenes = scenes.
Proof.
  rewrite organizeSceneRefs_map. rewrite <- (map_id scenes) at 3.
  apply map_ext_in. intros scene Hin. apply list_elem_of_In in Hin.
  unfold reconciled. rewrite find_absent.
  - apply setPreviousScene_own.
  - intros p Hp. apply targetsb_false. by apply Hnone.
Qed.

Lemma organizeSceneRefs_no_target_witness :
  organizeSceneRefs [setNextScene (Some "Z") (bare "A");
                     setPreviousScene (Some "A") (bare "B")]
  = [setNextScene (Some "Z") (bare "A");
     setPreviousScene (Some "A") (bare "B")].
Proof.
  apply organizeSceneRefs_no_target.
  intros p scene Hp _ (cs & c & Hcs & _).
  apply list_elem_of_In in Hp. simpl in Hp.
  destruct Hp as [<-|[<-|[]]]; discriminate.
Defined.

End ReconcilerMore.

(** ** The turns of the loop *)

Section Turns.

Implicit Types (st : State) (line : string) (lines : list string).

Lemma step_stepped st line st' : step st line = Ok st' ↔ stepped st line st'.
Proof.
  split.
  - intros H.
    destruct (hasKeyword Keyword.Character line 0) eqn:Hc.
    { rewrite (step_character _ _ Hc) in H.
      destruct (makeCharacter line) eqn:E; simplify_eq/=. by constructor. }
    destruct (hasKeyword Keyword.Emotion line 1) eqn:He.
    { rewrite (step_emotion _ _ He) in H.
      destruct (currentCharacter st) as [c0|] eqn:Hcur; [|done].
      destruct (addEmotion line (Some c0)) eqn:E; simplify_eq/=.
      by apply (stepped_emotion _ _ c0). }
    destruct (hasKeyword Keyword.Scene line 0) eqn:Hs.
    { rewrite (step_scene _ _ Hs) in H.
      destruct (makeScene line) eqn:E; simpl in H; [|done].
      destruct (currentScene st) as [cur|] eqn:Hcur; simplify_eq/=.
      - by apply stepped_scene_next.
      - by apply (stepped_scene_first st line). }
    destruct (hasKeyword Keyword.Choice line 1) eqn:Hch.
    { rewrite (step_choice _ _ Hch) in H.
      destruct (currentScene st) as [cur|] eqn:Hcur; [|done].
      destruct (addChoice line (Some cur)) eqn:E; simplify_eq/=.
      by apply (stepped_choice _ _ cur). }
    rewrite step_ignored in H by done. simplify_eq.
    apply stepped_ignored. unfold recognized. by rewrite Hc, He, Hs, Hch.
  - intros [c Hk Hb|c0 c Hk Hcur Hb|new Hk Hcur Hb|cur new Hk Hcur Hb
           |cur s Hk Hcur Hb|Hr].
    + by rewrite (step_character _ _ Hk), Hb.
    + by rewrite (step_emotion _ _ Hk), Hcur, Hb.
    + by rewrite (step_scene _ _ Hk), Hb, Hcur.
    + by rewrite (step_scene _ _ Hk), Hb, Hcur.
    + by rewrite (step_choice _ _ Hk), Hcur, Hb.
    + by apply step_unrecognized.
Qed.

Lemma addChoice_Ok line cur s :
  addChoice line (Some cur) = Ok s →
  ∃ choice,
    choice.(targetScene) ≠ "" ∧ s = pushChoice choice cur
    ∧ choiceOf line choice.
Proof.
  unfold choiceOf, addChoice. intros H.
  destruct (Js.split ":" line !! 0) as [instruction|]; [|done].
  destruct ((getParameter instruction).2) as [[|c t]|]; [done| |done].
  destruct (Js.split ":" line !! 1) as [label|]; [|done].
  simplify_eq. eexists. split; [|split; [reflexivity|]]; done.
Qed.

Lemma recognized_false line :
  recognized line = false →
  hasKeyword Keyword.Scene line 0 = false
  ∧ hasKeyword Keyword.Choice line 1 = false
  ∧ hasKeyword Keyword.Character line 0 = false
  ∧ hasKeyword Keyword.Emotion line 1 = false.
Proof. unfold recognized. rewrite !orb_false_iff. tauto. Qed.

Lemma stepped_grows st line st' :
  noOrphans st → stepped st line st' →
  grows line (accumulatedOf st) (accumulatedOf st') ∧ noOrphans st'.
Proof.
  unfold noOrphans, accumulatedOf.
  intros Hno [c Hk Hb|c0 c Hk Hcur Hb|new Hk Hcur Hb|cur new Hk Hcur Hb
             |cur s Hk Hcur Hb|Hr]; simpl.
  - split; [|done]. apply grows_same.
    + by apply (hasKeyword_exclusive Keyword.Character Keyword.Scene line 0 0).
    + by apply (hasKeyword_exclusive Keyword.Character Keyword.Choice line 0 1).
  - split; [|done]. apply grows_same.
    + by apply (hasKeyword_exclusive Keyword.Emotion Keyword.Scene line 1 0).
    + by apply (hasKeyword_exclusive Keyword.Emotion Keyword.Choice line 1 1).
  - split; [|done]. rewrite Hcur, (Hno Hcur). simpl. by apply grows_first.
  - split; [|done]. rewrite Hcur. simpl. rewrite <- app_assoc. simpl.
    by apply grows_next.
  - split; [|done]. rewrite Hcur. simpl.
    destruct (addChoice_Ok _ _ _ Hb) as (choice & Ht & -> & Hof).
    by apply grows_choice.
  - split; [|done]. apply recognized_false in Hr as (? & ? & _).
    by apply grows_same.
Qed.

(** An induction over the lines of a parse that goes through. *)
Lemma loop_grows (P : list string → list Scene → Prop) :
  P [] [] →
  (∀ ls L line L', P ls L → grows line L L' → P (ls ++ [line]) L') →
  ∀ lines st, loop lines initial = Ok st → P lines (accumulatedOf st).
Proof.
  intros Hnil Hstep.
  assert (∀ lines pre st0 st,
    noOrphans st0 → P pre (accumulatedOf st0) →
    loop lines st0 = Ok st → P (pre ++ lines) (accumulatedOf st)) as Hgen.
  { induction lines as [|l lines IH]; intros pre st0 st Hno HP; simpl.
    - intros [= <-]. by rewrite app_nil_r.
    - destruct (step st0 l) as [st1|] eqn:Hs; simpl; [|done].
      intros Hloop. apply step_stepped in Hs.
      destruct (stepped_grows _ _ _ Hno Hs) as [Hg Hno1].
      replace (pre ++ l :: lines) with ((pre ++ [l]) ++ lines)
        by (by rewrite <- app_assoc).
      apply (IH _ st1); [done| |done]. by apply (Hstep pre (accumulatedOf st0)). }
  intros lines st Hloop. apply (Hgen lines [] initial st); done.
Qed.

Lemma main_Ok script r :
  main script = Ok r →
  ∃ st, loop (getLines script) initial = Ok st
    ∧ r.(scenes) = organizeSceneRefs (accumulatedOf st)
    ∧ r.(characters) = pushOpen st.(st_characters) st.(currentCharacter).
Proof.
  unfold main. destruct (loop _ _) as [st|]; [|done].
  simpl. intros [= <-]. by exists st.
Qed.

End Turns.

(** ** What every scene of a result is like *)

Section ResultScenes.

Implicit Types (s : Scene) (L : list Scene) (line : string).

Lemma makeScene_Ok line s :
  makeScene line = Ok s →
  s.(previousScene) = None ∧ s.(choices) = None
  ∧ s.(isEndingScene) = false ∧ s.(dialogues) = [].
Proof.
  unfold makeScene. intros H.
  destruct (hasForbiddenInline line) as [[]|]; simpl in H; [done| |done].
  repeat case_match; by simplify_eq.
Qed.

Lemma sceneWf_same s s' : sameButPrevious s s' → sceneWf s → sceneWf s'.
Proof.
  intros (_ & _ & _ & He & Hd & Hc) (? & ? & ?). unfold sceneWf.
  by rewrite He, Hd, Hc.
Qed.

Lemma sceneWf_pushChoice choice s :
  choice.(targetScene) ≠ "" → sceneWf s → sceneWf (pushChoice choice s).
Proof.
  intros Ht (He & Hd & Hc). repeat split; [done..|]. simpl.
  destruct (choices s) as [cs|].
  - destruct Hc as [_ Hall]. split; [by destruct cs|].
    apply Forall_app. split; [done|]. by apply Forall_singleton.
  - split; [done|]. by apply Forall_singleton.
Qed.

Lemma grows_sceneWf line L L' : grows line L L' → Forall sceneWf L → Forall sceneWf L'.
Proof.
  intros [L0 _ _|new _ Hnew|A cur new _ Hnew|A cur choice _ Ht _]; [done|..].
  - intros _. apply Forall_singleton.
    destruct (makeScene_Ok _ _ Hnew) as (_ & Hc & He & Hd).
    unfold sceneWf. by rewrite Hc, He, Hd.
  - intros H. apply Forall_app in H as [HA Hcur].
    rewrite Forall_singleton in Hcur.
    apply Forall_app. split; [done|].
    apply Forall_cons. split; [exact Hcur|]. apply Forall_singleton.
    destruct (makeScene_Ok _ _ Hnew) as (_ & Hc & He & Hd).
    unfold sceneWf. simpl. by rewrite Hc, He, Hd.
  - intros H. apply Forall_app in H as [HA Hcur].
    rewrite Forall_singleton in Hcur.
    apply Forall_app. split; [done|]. apply Forall_singleton.
    by apply sceneWf_pushChoice.
Qed.

(** X10. In a result, no scene is an ending scene, no scene has a
    dialogue, and the choices of a scene that has a [choices] array are
    at least one, each with a target that is not empty: the parser
    never fills [dialogues], never sets [isEndingScene], and never
    leaves an empty array of choices. *)
Theorem result_scenes_wf script r (Hok : main script = Ok r) :
  Forall sceneWf r.(scenes).
Proof.
  destruct (main_Ok _ _ Hok) as (st & Hloop & -> & _).
  rewrite organizeSceneRefs_map. apply Forall_map.
  eapply Forall_impl.
  - apply (loop_grows (fun _ L => Forall sceneWf L)
             (Forall_nil_2 _)
             (fun ls L line L' HL Hg => grows_sceneWf line L L' Hg HL)
             _ _ Hloop).
  - intros s Hs. apply (sceneWf_same s); [|done].
    apply setPreviousScene_same.
Qed.

End ResultScenes.

Lemma result_scenes_wf_witness :
  ∃ r, main scriptMixed = Ok r ∧ Forall sceneWf r.(scenes).
Proof.
  eexists. split; [reflexivity|].
  apply (result_scenes_wf scriptMixed). reflexivity.
Defined.

(** ** The scenes of a result, statement by statement *)

Section Chaining.

Implicit Types (s b : Scene) (L A built B : list Scene) (line : string).

Lemma length_chained built : ∀ prev, length (chained prev built) = length built.
Proof. induction built as [|b built IH]; intros prev; simpl; [done|]. by rewrite IH. Qed.

Lemma chained_single prev b : chained prev [b] = [skeleton (setPreviousScene prev b)].
Proof. unfold skeleton. simpl. by destruct (nextScene b). Qed.

Lemma head_app_cons {T} (xs : list T) (x : T) (ys : list T) :
  head (xs ++ x :: ys) = head (xs ++ [x]).
Proof. by destruct xs. Qed.

(** The skeletons of the scenes before the last do not depend on what
    follows the last. *)
Lemma chained_app B b : ∀ prev,
  ∃ P q, length P = length B
    ∧ ∀ X, chained prev (B ++ b :: X) = P ++ chained q (b :: X).
Proof.
  induction B as [|b0 B IH]; intros prev.
  - by exists [], prev.
  - destruct (IH (Some b0.(label))) as (P & q & Hlen & HP).
    eexists (_ :: P), q. split; [simpl; by rewrite Hlen|].
    intros X. simpl. rewrite HP, (head_app_cons B b X). reflexivity.
Qed.

Lemma filter_snoc (f : string → bool) ls line :
  List.filter f (ls ++ [line])
  = List.filter f ls ++ (if f line then [line] else []).
Proof. rewrite List.filter_app. simpl. by destruct (f line). Qed.

Lemma grows_chained ls line L L' :
  (∃ built, Forall2 builtBy (sceneStatements ls) built
            ∧ map skeleton L = chained None built) →
  grows line L L' →
  ∃ built, Forall2 builtBy (sceneStatements (ls ++ [line])) built
           ∧ map skeleton L' = chained None built.
Proof.
  unfold sceneStatements. rewrite filter_snoc.
  intros Hinv Hg. revert Hinv.
  destruct Hg as [L0 Hs _|new Hs Hnew|A cur new Hs Hnew|A cur choice Hc _ _];
    intros (built & Hb & Hsk).
  - exists built. rewrite Hs, app_nil_r. done.
  - assert (built = []) as ->.
    { apply (f_equal length) in Hsk. rewrite length_chained in Hsk.
      by destruct built. }
    apply Forall2_nil_inv_r in Hb. rewrite Hb, Hs. simpl.
    exists [new]. split; [by apply Forall2_cons|].
    rewrite chained_single. f_equal. unfold skeleton. simpl.
    by destruct (makeScene_Ok _ _ Hnew) as (-> & _).
  - rewrite Hs.
    assert (∃ B b, built = B ++ [b]) as (B & b & ->).
    { destruct (exists_last (l:=built)) as (B & b & ->); [|by eauto].
      intros ->. apply (f_equal length) in Hsk.
      rewrite length_map, length_app in Hsk. simpl in Hsk. lia. }
    exists (B ++ [b; new]). split.
    { replace (B ++ [b; new]) with ((B ++ [b]) ++ [new])
        by (by rewrite <- app_assoc).
      apply Forall2_app; [done|]. by apply Forall2_cons. }
    destruct (chained_app B b None) as (P & q & Hlen & HP).
    rewrite HP in *. rewrite chained_single in Hsk.
    rewrite map_app in *. simpl in *.
    apply app_inj_1 in Hsk as [HA Hcur];
      [|by rewrite length_map, Hlen; apply (f_equal length) in Hsk;
        rewrite !length_app, length_map in Hsk; simpl in Hsk; lia].
    rewrite HA. f_equal. injection Hcur as Hl Hcond Hn Hp.
    unfold skeleton. simpl.
    destruct (makeScene_Ok _ _ Hnew) as (_ & _ & _ & _).
    rewrite Hl, Hcond, Hn, Hp.
    by destruct (nextScene b), (nextScene new).
  - exists built. rewrite (hasKeyword_exclusive Keyword.Choice Keyword.Scene
                             line 1 0) by done.
    rewrite app_nil_r. split; [done|].
    rewrite <- Hsk, !map_app. done.
Qed.

Lemma loop_chained lines st :
  loop lines initial = Ok st →
  ∃ built, Forall2 builtBy (sceneStatements lines) built
           ∧ map skeleton (accumulatedOf st) = chained None built.
Proof.
  apply (loop_grows (fun ls L =>
    ∃ built, Forall2 builtBy (sceneStatements ls) built
             ∧ map skeleton L = chained None built)).
  - exists []. by split; [constructor|].
  - intros ls L line L' HL Hg. by apply (grows_chained ls line L).
Qed.

End Chaining.

Section ChainingResults.

Implicit Types (s : Scene) (L built : list Scene).

Lemma reconciled_same L s : sameButPrevious s (reconciled L s).
Proof. apply setPreviousScene_same. Qed.

Lemma reconciled_untargeted L s :
  (∀ p, p ∈ map (reconciled L) L → ¬ targets p s.(label)) →
  reconciled L s = s.
Proof.
  intros Hnone. unfold reconciled. rewrite find_absent.
  - apply setPreviousScene_own.
  - intros p Hp. apply targetsb_false. intros Ht.
    apply (Hnone (reconciled L p)).
    + apply list_elem_of_In, in_map. by apply list_elem_of_In.
    + by apply (targets_same p (reconciled L p) _ (reconciled_same L p)).
Qed.

(** X11. The scenes of a result are, in order, those that [makeScene]
    builds from the scene statements of the script, chained: each has
    the label and the condition of its statement; its [nextScene] is the
    declared one, or else the label of the next scene, or else
    undefined; and when no choice of the result targets it, its
    [previousScene] is the label of the scene before it, undefined for
    the first scene. *)
Theorem scenes_of_statements script r (Hok : main script = Ok r) :
  ∃ built,
    Forall2 builtBy (sceneStatements (getLines script)) built
    ∧ Forall2 (agrees r.(scenes)) r.(scenes) (chained None built).
Proof.
  destruct (main_Ok _ _ Hok) as (st & Hloop & Hr & _).
  destruct (loop_chained _ _ Hloop) as (built & Hb & Hsk).
  exists built. split; [done|].
  rewrite Hr, organizeSceneRefs_map, <- Hsk.
  apply Forall2_fmap, Forall_Forall2_diag, Forall_forall.
  intros s _. destruct (reconciled_same (accumulatedOf st) s)
    as (Hl & Hc & Hn & _).
  repeat split; [done..|].
  intros Hnone. rewrite Hl in Hnone.
  by rewrite (reconciled_untargeted _ _ Hnone).
Qed.

Lemma chained_lookup built : ∀ prev i k,
  chained prev built !! i = Some k →
  (S i < length built → is_Some k.(sk_next))
  ∧ (0 < i ∨ is_Some prev → is_Some k.(sk_previous)).
Proof.
  induction built as [|b built IH]; intros prev i k; [done|].
  destruct i as [|i]; simpl.
  - intros [= <-]. simpl. split.
    + intros Hlen. destruct (nextScene b); [done|].
      destruct built; simpl in *; [lia|done].
    + intros [?|?]; [lia|done].
  - intros Hk. destruct (IH _ _ _ Hk) as [Hn Hp]. split.
    + intros ?. apply Hn. lia.
    + intros _. apply Hp. by right.
Qed.

(** X12. In a result, every scene but the last has a [nextScene] and
    every scene but the first has a [previousScene]. *)
Theorem result_links script r i s
    (Hok : main script = Ok r) (Hi : r.(scenes) !! i = Some s) :
  (S i < length r.(scenes) → is_Some s.(nextScene))
  ∧ (0 < i → is_Some s.(previousScene)).
Proof.
  destruct (main_Ok _ _ Hok) as (st & Hloop & Hr & _).
  destruct (loop_chained _ _ Hloop) as (built & _ & Hsk).
  rewrite Hr in *. rewrite organizeSceneRefs_length.
  destruct (organizeSceneRefs_lookup_inv _ _ _ Hi) as (s0 & Hs0 & ->).
  assert (chained None built !! i = Some (skeleton s0)) as Hk.
  { by rewrite <- Hsk, list_lookup_fmap, Hs0. }
  destruct (chained_lookup _ _ _ _ Hk) as [Hn Hp].
  assert (length built = length (accumulatedOf st)) as Hlen.
  { apply (f_equal length) in Hsk.
    by rewrite length_chained, length_map in Hsk. }
  rewrite Hlen in Hn. split; [exact Hn|].
  intros Hpos. simpl.
  destruct (List.find _ _); [done|]. apply Hp. by left.
Qed.

End ChainingResults.

Lemma scenes_of_statements_witness :
  ∃ r built,
    main scriptMixed = Ok r
    ∧ Forall2 builtBy (sceneStatements (getLines scriptMixed)) built
    ∧ Forall2 (agrees r.(scenes)) r.(scenes) (chained None built).
Proof.
  destruct (scenes_of_statements scriptMixed _ eq_refl) as (built & H1 & H2).
  by eexists _, built.
Defined.

Lemma result_links_witness :
  ∃ s, organizeSceneRefs accumulatedABC !! 1 = Some s
    ∧ is_Some s.(nextScene) ∧ is_Some s.(previousScene).
Proof.
  eexists. split; [reflexivity|].
  destruct (result_links scriptABC _ 1 _ eq_refl eq_refl) as [Hn Hp].
  split; [apply Hn|apply Hp]; simpl; lia.
Defined.

(** ** The choices of a result *)

Section Choices.

Implicit Types (s : Scene) (L A : list Scene) (line : string).

Lemma allChoices_app L1 L2 : allChoices (L1 ++ L2) = allChoices L1 ++ allChoices L2.
Proof. unfold allChoices. apply flat_map_app. Qed.

Lemma allChoices_pushChoice choice s :
  allChoices [pushChoice choice s] = allChoices [s] ++ [choice].
Proof.
  unfold allChoices. simpl. rewrite !app_nil_r. by destruct (choices s).
Qed.

Lemma allChoices_organizeSceneRefs L : allChoices (organizeSceneRefs L) = allChoices L.
Proof.
  rewrite organizeSceneRefs_map. unfold allChoices.
  rewrite flat_map_concat_map, map_map, <- flat_map_concat_map. done.
Qed.

Lemma grows_choices ls line L L' :
  grows line L L' →
  Forall2 choiceOf (choiceStatements ls) (allChoices L) →
  Forall2 choiceOf (choiceStatements (ls ++ [line])) (allChoices L').
Proof.
  unfold choiceStatements. rewrite filter_snoc.
  intros [L0 _ Hc|new Hs Hnew|A cur new Hs Hnew|A cur choice Hc _ Hof].
  - by rewrite Hc, app_nil_r.
  - rewrite (hasKeyword_exclusive Keyword.Scene Keyword.Choice line 0 1)
      by done.
    rewrite app_nil_r. unfold allChoices. simpl.
    by destruct (makeScene_Ok _ _ Hnew) as (_ & -> & _).
  - rewrite (hasKeyword_exclusive Keyword.Scene Keyword.Choice line 0 1)
      by done.
    rewrite app_nil_r, !allChoices_app. unfold allChoices at 2 4. simpl.
    by destruct (makeScene_Ok _ _ Hnew) as (_ & -> & _).
  - rewrite Hc, !allChoices_app, allChoices_pushChoice, app_assoc.
    intros H. apply Forall2_app; [done|]. by apply Forall2_cons.
Qed.

(** X13. The choices of the scenes of a result, taken scene after
    scene, are in order the choices that the choice statements of the
    script add, one each: no choice line is lost and none counts
    twice. *)
Theorem choices_of_statements script r (Hok : main script = Ok r) :
  Forall2 choiceOf (choiceStatements (getLines script)) (allChoices r.(scenes))
  ∧ length (allChoices r.(scenes))
    = length (choiceStatements (getLines script)).
Proof.
  destruct (main_Ok _ _ Hok) as (st & Hloop & -> & _).
  rewrite allChoices_organizeSceneRefs.
  assert (Forall2 choiceOf (choiceStatements (getLines script))
            (allChoices (accumulatedOf st))) as H.
  { apply (loop_grows (fun ls L =>
      Forall2 choiceOf (choiceStatements ls) (allChoices L))
      ltac:(constructor)
      (fun ls L line L' HL Hg => grows_choices ls line L L' Hg HL)
      _ _ Hloop). }
  split; [done|]. symmetry. by apply (Forall2_length _ _ _ H).
Qed.

End Choices.

Lemma choices_of_statements_witness :
  ∃ r, main scriptMixed = Ok r
    ∧ Forall2 choiceOf (choiceStatements (getLines scriptMixed))
        (allChoices r.(scenes))
    ∧ length (allChoices r.(scenes)) = 2.
Proof.
  eexists. split; [reflexivity|].
  apply (choices_of_statements scriptMixed). reflexivity.
Defined.

(** ** The characters of a result *)

Section Characters.

Implicit Types (c : Character) (L A : list Character) (line : string)
  (lines ls : list string).

Lemma makeCharacter_Ok line c : makeCharacter line = Ok c → c.(emotions) = ∅.
Proof.
  unfold makeCharacter. intros H.
  destruct (hasForbiddenInline line) as [[]|]; simpl in H; [done| |done].
  repeat case_match; by simplify_eq.
Qed.

Lemma addEmotion_Ok line c0 c :
  addEmotion line (Some c0) = Ok c →
  ∃ key path,
    emotionEntry line = Some (key, path)
    ∧ c.(name) = c0.(name)
    ∧ c.(emotions) = if String.eqb key "__proto__" then c0.(emotions)
                     else <[key := path]> c0.(emotions).
Proof.
  unfold addEmotion, emotionEntry, setProperty. intros H.
  destruct (Js.split ":" line !! 1) as [[|d p]|]; simplify_eq.
  by eexists _, _.
Qed.

Lemma stepped_growsCharacters st line st' :
  stepped st line st' →
  growsCharacters line (charactersOf st) (charactersOf st').
Proof.
  unfold charactersOf.
  intros [c Hk Hb|c0 c Hk Hcur Hb|new Hk Hcur Hb|cur new Hk Hcur Hb
         |cur s Hk Hcur Hb|Hr]; simpl.
  - by apply growsCharacters_open.
  - rewrite Hcur. simpl. by apply (growsCharacters_emotion line _ c0).
  - apply growsCharacters_same.
    + by apply (hasKeyword_exclusive Keyword.Scene Keyword.Character line 0 0).
    + by apply (hasKeyword_exclusive Keyword.Scene Keyword.Emotion line 0 1).
  - apply growsCharacters_same.
    + by apply (hasKeyword_exclusive Keyword.Scene Keyword.Character line 0 0).
    + by apply (hasKeyword_exclusive Keyword.Scene Keyword.Emotion line 0 1).
  - apply growsCharacters_same.
    + by apply (hasKeyword_exclusive Keyword.Choice Keyword.Character line 1 0).
    + by apply (hasKeyword_exclusive Keyword.Choice Keyword.Emotion line 1 1).
  - apply recognized_false in Hr as (_ & _ & ? & ?).
    by apply growsCharacters_same.
Qed.

Lemma loop_growsCharacters (P : list string → list Character → Prop) :
  P [] [] →
  (∀ ls L line L', P ls L → growsCharacters line L L' → P (ls ++ [line]) L') →
  ∀ lines st, loop lines initial = Ok st → P lines (charactersOf st).
Proof.
  intros Hnil Hstep.
  assert (∀ lines pre st0 st,
    P pre (charactersOf st0) →
    loop lines st0 = Ok st → P (pre ++ lines) (charactersOf st)) as Hgen.
  { induction lines as [|l lines IH]; intros pre st0 st HP; simpl.
    - intros [= <-]. by rewrite app_nil_r.
    - destruct (step st0 l) as [st1|] eqn:Hs; simpl; [|done].
      intros Hloop. apply step_stepped in Hs.
      replace (pre ++ l :: lines) with ((pre ++ [l]) ++ lines)
        by (by rewrite <- app_assoc).
      apply (IH _ st1); [|done].
      apply (Hstep pre (charactersOf st0)); [done|].
      by apply stepped_growsCharacters. }
  intros lines st Hloop. by apply (Hgen lines [] initial st).
Qed.

Lemma entriesFrom_more ls line c : entriesFrom ls c → entriesFrom (ls ++ [line]) c.
Proof.
  intros H key path Hk. destruct (H key path Hk) as (l & Hin & Hl).
  exists l. split; [|done]. apply elem_of_app. by left.
Qed.

Lemma growsCharacters_named ls line L L' :
  growsCharacters line L L' →
  Forall2 namedBy (characterStatements ls) L ∧ Forall (entriesFrom ls) L →
  Forall2 namedBy (characterStatements (ls ++ [line])) L'
  ∧ Forall (entriesFrom (ls ++ [line])) L'.
Proof.
  unfold characterStatements. rewrite filter_snoc.
  intros [L0 Hc _|L0 c Hc Hmake|A c0 c He Hadd]; intros [Hn Hf].
  - rewrite Hc, app_nil_r. split; [done|].
    eapply Forall_impl; [exact Hf|]. intros c. apply entriesFrom_more.
  - rewrite Hc. split.
    + apply Forall2_app; [done|]. constructor; [|constructor].
      by exists c.
    + apply Forall_app. split.
      * eapply Forall_impl; [exact Hf|]. intros c'. apply entriesFrom_more.
      * apply Forall_singleton. intros key path.
        by rewrite (makeCharacter_Ok _ _ Hmake), lookup_empty.
  - rewrite (hasKeyword_exclusive Keyword.Emotion Keyword.Character line 1 0)
      by done.
    rewrite app_nil_r.
    destruct (addEmotion_Ok _ _ _ Hadd) as (key & path & Hentry & Hname & Hem).
    apply Forall_app in Hf as [HfA Hf0]. rewrite Forall_singleton in Hf0.
    split.
    + apply Forall2_app_inv_r in Hn as (fl1 & fl2 & H1 & H2 & ->).
      apply Forall2_app; [done|].
      apply Forall2_cons_inv_r in H2 as (l0 & fl & (c' & Hm & Hnm) & Hnil & ->).
      apply Forall2_nil_inv_r in Hnil as ->.
      constructor; [|constructor]. exists c'. split; [done|congruence].
    + apply Forall_app. split.
      * eapply Forall_impl; [exact HfA|]. intros c'. apply entriesFrom_more.
      * apply Forall_singleton. intros key' path' Hlook. rewrite Hem in Hlook.
        assert (c0.(emotions) !! key' = Some path'
                ∨ (key' = key ∧ path' = path)) as [Hold|[-> ->]].
        { destruct (String.eqb key "__proto__"); [by left|].
          destruct (decide (key = key')) as [->|Hne].
          - rewrite lookup_insert_eq in Hlook. right. by simplify_eq.
          - rewrite lookup_insert_ne in Hlook by done. by left. }
        -- by apply (entriesFrom_more ls line c0 Hf0).
        -- exists line. split; [|done]. apply elem_of_app. right.
           apply list_elem_of_here.
Qed.

(** X14. The characters of a result are, in order, those of the
    character statements of the script, each with the name that
    [makeCharacter] reads off its statement; and every entry of the
    emotions of a character is the key and the trimmed path that
    [addEmotion] reads off some emotion line of the script. *)
Theorem characters_of_statements script r (Hok : main script = Ok r) :
  Forall2 namedBy (characterStatements (getLines script)) r.(characters)
  ∧ Forall (entriesFrom (getLines script)) r.(characters).
Proof.
  destruct (main_Ok _ _ Hok) as (st & Hloop & _ & ->).
  apply (loop_growsCharacters (fun ls L =>
    Forall2 namedBy (characterStatements ls) L ∧ Forall (entriesFrom ls) L)
    ltac:(by split; constructor)
    (fun ls L line L' HL Hg => growsCharacters_named ls line L L' Hg HL)
    _ _ Hloop).
Qed.

End Characters.

Lemma characters_of_statements_witness :
  ∃ r, main scriptMixed = Ok r
    ∧ Forall2 namedBy (characterStatements (getLines scriptMixed))
        r.(characters)
    ∧ Forall (entriesFrom (getLines scriptMixed)) r.(characters).
Proof.
  eexists. split; [reflexivity|].
  apply (characters_of_statements scriptMixed). reflexivity.
Defined.

(** ** Scene blocks and character blocks *)

Section Blocks.

Implicit Types (st : State) (line : string) (lines : list string).

Lemma characterSide_false line :
  characterSide line = false →
  hasKeyword Keyword.Character line 0 = false
  ∧ hasKeyword Keyword.Emotion line 1 = false.
Proof. unfold characterSide. by rewrite orb_false_iff. Qed.

Lemma sceneSide_false line :
  sceneSide line = false →
  hasKeyword Keyword.Scene line 0 = false
  ∧ hasKeyword Keyword.Choice line 1 = false.
Proof. unfold sceneSide. by rewrite orb_false_iff. Qed.

Lemma step_sceneOnly st line st' :
  step st line = Ok st' →
  if characterSide line then sceneOnly st' = sceneOnly st
  else step (sceneOnly st) line = Ok (sceneOnly st').
Proof.
  intros H. apply step_stepped in H.
  destruct H as [c Hk Hb|c0 c Hk Hcur Hb|new Hk Hcur Hb|cur new Hk Hcur Hb
                |cur s Hk Hcur Hb|Hr]; unfold characterSide.
  - by rewrite Hk.
  - rewrite Hk, orb_true_r. done.
  - rewrite (hasKeyword_exclusive Keyword.Scene Keyword.Character line 0 0),
      (hasKeyword_exclusive Keyword.Scene Keyword.Emotion line 0 1) by done.
    simpl. rewrite (step_scene _ _ Hk), Hb. simpl. by rewrite Hcur.
  - rewrite (hasKeyword_exclusive Keyword.Scene Keyword.Character line 0 0),
      (hasKeyword_exclusive Keyword.Scene Keyword.Emotion line 0 1) by done.
    simpl. rewrite (step_scene _ _ Hk), Hb. simpl. by rewrite Hcur.
  - rewrite (hasKeyword_exclusive Keyword.Choice Keyword.Character line 1 0),
      (hasKeyword_exclusive Keyword.Choice Keyword.Emotion line 1 1) by done.
    simpl. rewrite (step_choice _ _ Hk). simpl. by rewrite Hcur, Hb.
  - destruct (recognized_false _ Hr) as (_ & _ & -> & ->). simpl.
    by apply step_unrecognized.
Qed.

Lemma step_characterOnly st line st' :
  step st line = Ok st' →
  if sceneSide line then characterOnly st' = characterOnly st
  else step (characterOnly st) line = Ok (characterOnly st').
Proof.
  intros H. apply step_stepped in H.
  destruct H as [c Hk Hb|c0 c Hk Hcur Hb|new Hk Hcur Hb|cur new Hk Hcur Hb
                |cur s Hk Hcur Hb|Hr]; unfold sceneSide.
  - rewrite (hasKeyword_exclusive Keyword.Character Keyword.Scene line 0 0),
      (hasKeyword_exclusive Keyword.Character Keyword.Choice line 0 1) by done.
    simpl. by rewrite (step_character _ _ Hk), Hb.
  - rewrite (hasKeyword_exclusive Keyword.Emotion Keyword.Scene line 1 0),
      (hasKeyword_exclusive Keyword.Emotion Keyword.Choice line 1 1) by done.
    simpl. rewrite (step_emotion _ _ Hk). simpl. by rewrite Hcur, Hb.
  - by rewrite Hk.
  - by rewrite Hk.
  - rewrite Hk, orb_true_r. done.
  - destruct (recognized_false _ Hr) as (-> & -> & _). simpl.
    by apply step_unrecognized.
Qed.

Lemma loop_sceneOnly lines : ∀ st0 st,
  loop lines st0 = Ok st →
  loop (List.filter (fun line => negb (characterSide line)) lines)
    (sceneOnly st0) = Ok (sceneOnly st).
Proof.
  induction lines as [|l lines IH]; intros st0 st; simpl.
  - by intros [= <-].
  - destruct (step st0 l) as [st1|] eqn:Hs; simpl; [|done].
    intros Hloop. apply step_sceneOnly in Hs.
    destruct (characterSide l); simpl.
    + rewrite <- Hs. by apply IH.
    + rewrite Hs. simpl. by apply IH.
Qed.

Lemma loop_characterOnly lines : ∀ st0 st,
  loop lines st0 = Ok st →
  loop (List.filter (fun line => negb (sceneSide line)) lines)
    (characterOnly st0) = Ok (characterOnly st).
Proof.
  induction lines as [|l lines IH]; intros st0 st; simpl.
  - by intros [= <-].
  - destruct (step st0 l) as [st1|] eqn:Hs; simpl; [|done].
    intros Hloop. apply step_characterOnly in Hs.
    destruct (sceneSide l); simpl.
    + rewrite <- Hs. by apply IH.
    + rewrite Hs. simpl. by apply IH.
Qed.

(** X15. Scene blocks and character blocks do not touch one another:
    when the loop goes through, it also goes through once the character
    and emotion lines are removed, with the same scenes pushed and the
    same scene open, and once the scene and choice lines are removed,
    with the same characters pushed and the same character open. *)
Theorem blocks_independent lines st (Hloop : loop lines initial = Ok st) :
  loop (List.filter (fun line => negb (characterSide line)) lines) initial
  = Ok (sceneOnly st)
  ∧ loop (List.filter (fun line => negb (sceneSide line)) lines) initial
    = Ok (characterOnly st).
Proof.
  split.
  - by apply (loop_sceneOnly lines initial).
  - by apply (loop_characterOnly lines initial).
Qed.

End Blocks.

Lemma blocks_independent_witness :
  ∃ st,
    loop (getLines scriptMixed) initial = Ok st
    ∧ loop (List.filter (fun line => negb (characterSide line))
              (getLines scriptMixed)) initial = Ok (sceneOnly st)
    ∧ loop (List.filter (fun line => negb (sceneSide line))
              (getLines scriptMixed)) initial = Ok (characterOnly st).
Proof.
  eexists. split; [reflexivity|].
  apply (blocks_independent (getLines scriptMixed)). reflexivity.
Defined.

(** ** Tokens *)

Section Tokens.

Implicit Types (s w g lead X : string) (items : list (string * string))
  (words : list string) (r : bool).

Lemma append_nil_r s : (s ++ "")%string = s.
Proof. induction s as [|c s IH]; [done|]. by rewrite append_cons, IH. Qed.

Lemma collapseWs_gap_run g X :
  allWs g = true → Js.collapseWs true (g ++ X) = Js.collapseWs true X.
Proof.
  induction g as [|c g IH]; [done|]. simpl.
  intros [Hc Hg]%andb_true_iff. rewrite ?append_cons. simpl.
  rewrite Hc. by apply IH.
Qed.

Lemma collapseWs_gap r g X :
  allWs g = true → g ≠ "" →
  Js.collapseWs r (g ++ X)
  = ((if r then "" else " ") ++ Js.collapseWs true X)%string.
Proof.
  destruct g as [|c g]; [done|]. simpl.
  intros [Hc Hg]%andb_true_iff _. rewrite ?append_cons. simpl. rewrite Hc.
  rewrite (collapseWs_gap_run g X Hg). by destruct r.
Qed.

Lemma collapseWs_noWs w X :
  noWs w = true →
  Js.collapseWs false (w ++ X) = (w ++ Js.collapseWs false X)%string.
Proof.
  induction w as [|c w IH]; [done|]. simpl.
  intros [Hc Hw]%andb_true_iff. rewrite ?append_cons. simpl.
  apply negb_true_iff in Hc. rewrite Hc. by rewrite (IH Hw).
Qed.

Lemma collapseWs_word r w X :
  isWord w →
  Js.collapseWs r (w ++ X) = (w ++ Js.collapseWs false X)%string.
Proof.
  intros [Hne Hw]. destruct w as [|c w]; [done|]. simpl in Hw.
  apply andb_true_iff in Hw as [Hc Hw]. rewrite ?append_cons. simpl.
  apply negb_true_iff in Hc. rewrite Hc. by rewrite (collapseWs_noWs w X Hw).
Qed.

Lemma collapseWs_spaced items : ∀ r,
  itemsOk items → items ≠ [] →
  Js.collapseWs r (spaced items)
  = (unwords (map fst items) ++ lastGap items)%string.
Proof.
  induction items as [|[w g] rest IH]; intros r; [done|].
  intros (Hw & Hg & Hgap & Hrest) _. simpl spaced.
  rewrite (collapseWs_word r w _ Hw).
  destruct rest as [|item rest].
  - simpl. rewrite append_nil_r. unfold lastGap. simpl.
    destruct g as [|c g]; [done|].
    rewrite <- (append_nil_r (String c g)).
    by rewrite (collapseWs_gap false _ "" Hg).
  - rewrite (collapseWs_gap false g _ Hg) by (by apply Hgap).
    rewrite (IH true Hrest) by done.
    change (lastGap ((w, g) :: item :: rest)) with (lastGap (item :: rest)).
    change (unwords (map fst ((w, g) :: item :: rest)))
      with (w ++ " " ++ unwords (map fst (item :: rest)))%string.
    by rewrite !append_assoc.
Qed.

Lemma trimEnd_cons c s :
  Js.trimEnd s = s → (s = "" → Js.isWhiteSpace c = false) →
  Js.trimEnd (String c s) = String c s.
Proof.
  intros Hs Hc. simpl. rewrite Hs. destruct s; [|done]. by rewrite Hc.
Qed.

Lemma trimEnd_app x s :
  Js.trimEnd s = s → s ≠ "" → Js.trimEnd (x ++ s) = (x ++ s)%string.
Proof.
  intros Hs Hne. induction x as [|c x IH]; [done|].
  rewrite append_cons. apply trimEnd_cons; [done|].
  intros E. by destruct x, s.
Qed.

Lemma trimEnd_noWs w : noWs w = true → Js.trimEnd w = w.
Proof.
  induction w as [|c w IH]; [done|]. simpl noWs.
  intros [Hc Hw]%andb_true_iff. apply trimEnd_cons; [by apply IH|].
  intros _. by apply negb_true_iff.
Qed.

Lemma trimEnd_allWs g : allWs g = true → Js.trimEnd g = "".
Proof.
  induction g as [|c g IH]; [done|]. simpl.
  intros [Hc Hg]%andb_true_iff. by rewrite (IH Hg), Hc.
Qed.

Lemma trimEnd_app_allWs s g :
  allWs g = true → Js.trimEnd (s ++ g) = Js.trimEnd s.
Proof.
  intros Hg. induction s as [|c s IH].
  - by apply trimEnd_allWs.
  - rewrite ?append_cons. simpl. by rewrite IH.
Qed.

Lemma unwords_nonempty words :
  Forall isWord words → words ≠ [] → unwords words ≠ "".
Proof.
  intros Hall Hne. destruct words as [|w [|w' rest]]; [done|..].
  - apply Forall_inv in Hall. by destruct Hall.
  - apply Forall_inv in Hall. destruct Hall as [Hw _]. simpl.
    by destruct w.
Qed.

Lemma trimEnd_unwords words :
  Forall isWord words → Js.trimEnd (unwords words) = unwords words.
Proof.
  induction words as [|w rest IH]; [done|]. intros Hall.
  pose proof (Forall_inv Hall) as [_ Hw].
  apply Forall_inv_tail in Hall.
  destruct rest as [|w' rest]; [by apply trimEnd_noWs|].
  change (unwords (w :: w' :: rest))
    with (w ++ " " ++ unwords (w' :: rest))%string.
  rewrite <- append_assoc. apply trimEnd_app; [by apply IH|].
  by apply unwords_nonempty.
Qed.

Lemma trimStart_word w X : isWord w → Js.trimStart (w ++ X) = (w ++ X)%string.
Proof.
  intros [Hne Hw]. destruct w as [|c w]; [done|]. simpl in Hw.
  apply andb_true_iff in Hw as [Hc _]. apply negb_true_iff in Hc.
  rewrite ?append_cons. simpl. by rewrite Hc.
Qed.

Lemma unwords_head w words :
  ∃ X, unwords (w :: words) = (w ++ X)%string.
Proof.
  destruct words as [|w' rest].
  - exists "". by rewrite append_nil_r.
  - by eexists.
Qed.

Lemma itemsOk_words items : itemsOk items → Forall isWord (map fst items).
Proof.
  induction items as [|[w g] rest IH]; [constructor|].
  intros (Hw & _ & _ & Hrest). constructor; [done|by apply IH].
Qed.

Lemma lastGap_allWs items : allWs (lastGap items) = true.
Proof. unfold lastGap. by destruct (last items) as [[? [|]]|]. Qed.

(** The normal form of a line of words. *)
Lemma removeExtraSpaces_spaced lead items :
  allWs lead = true → itemsOk items → items ≠ [] →
  removeExtraSpaces (lead ++ spaced items) = unwords (map fst items).
Proof.
  intros Hlead Hok Hne. unfold removeExtraSpaces, Js.trim.
  pose proof (itemsOk_words _ Hok) as Hwords.
  assert (Js.trimStart (Js.collapseWs false (lead ++ spaced items))
          = (unwords (map fst items) ++ lastGap items)%string) as ->.
  { destruct items as [|[w g] rest]; [done|].
    destruct (unwords_head w (map fst rest)) as [X HX].
    pose proof (Forall_inv Hwords) as Hw. simpl in Hw.
    destruct lead as [|c lead].
    - change ("" ++ spaced ((w, g) :: rest))%string
        with (spaced ((w, g) :: rest)).
      rewrite (collapseWs_spaced _ false Hok Hne).
      simpl map. rewrite HX, append_assoc. by apply trimStart_word.
    - rewrite (collapseWs_gap false _ _ Hlead) by done.
      rewrite (collapseWs_spaced _ true Hok Hne).
      simpl map. rewrite HX, append_assoc.
      change (" " ++ w ++ X ++ lastGap ((w, g) :: rest))%string
        with (String " " (w ++ X ++ lastGap ((w, g) :: rest))).
      simpl Js.trimStart. by apply trimStart_word. }
  rewrite trimEnd_app_allWs by apply lastGap_allWs.
  by apply trimEnd_unwords.
Qed.

Lemma noWs_no_space w : noWs w = true → Js.includes " " w = false.
Proof.
  induction w as [|c w IH]; [done|]. simpl.
  intros [Hc Hw]%andb_true_iff. rewrite (IH Hw), orb_false_r.
  destruct (Ascii.eqb_spec c " ") as [->|]; [done|done].
Qed.

Lemma split_unwords words :
  Forall isWord words → words ≠ [] → Js.split " " (unwords words) = words.
Proof.
  induction words as [|w rest IH]; [done|]. intros Hall _.
  pose proof (Forall_inv Hall) as [_ Hw].
  apply Forall_inv_tail in Hall.
  destruct rest as [|w' rest].
  - simpl. by apply split_absent, noWs_no_space.
  - change (unwords (w :: w' :: rest))
      with (w ++ String " " (unwords (w' :: rest)))%string.
    rewrite split_app by (by apply noWs_no_space).
    by rewrite IH.
Qed.

Lemma tokens_spaced lead items :
  allWs lead = true → itemsOk items → items ≠ [] →
  Js.split " " (removeExtraSpaces (lead ++ spaced items)) = map fst items.
Proof.
  intros Hlead Hok Hne. rewrite (removeExtraSpaces_spaced _ _ Hlead Hok Hne).
  apply split_unwords; [by apply itemsOk_words|]. by destruct items.
Qed.

(** X16. The tokens of a line.  A line made of words (non-empty and
    free of white space), each followed by a run of white space that
    only after the last word may be empty, and preceded by any run of
    white space, is normalized by [removeExtraSpaces] to its words
    joined by single spaces, and splitting that on the space gives back
    the words. *)
Theorem tokens_of_line lead items
    (Hlead : allWs lead = true) (Hok : itemsOk items) (Hne : items ≠ []) :
  removeExtraSpaces (lead ++ spaced items) = unwords (map fst items)
  ∧ Js.split " " (removeExtraSpaces (lead ++ spaced items)) = map fst items.
Proof.
  split; [by apply removeExtraSpaces_spaced|by apply tokens_spaced].
Qed.

End Tokens.

Lemma tokens_of_line_witness :
  removeExtraSpaces ("  " ++ spaced [("scene", "   "); ("A", " ");
                                     ("->", tab); ("Z:", " ")])
  = "scene A -> Z:"
  ∧ Js.split " "
      (removeExtraSpaces ("  " ++ spaced [("scene", "   "); ("A", " ");
                                          ("->", tab); ("Z:", " ")]))
    = ["scene"; "A"; "->"; "Z:"].
Proof.
  apply (tokens_of_line "  " [("scene", "   "); ("A", " ");
                             ("->", tab); ("Z:", " ")]);
    [reflexivity| |discriminate].
  simpl. unfold isWord. repeat split; done.
Defined.

Section Normalization.

Implicit Types (s w g lead : string) (items : list (string * string))
  (words : list string).

(** Every string is a run of white space followed by words and gaps. *)
Lemma spaced_exists s :
  ∃ lead items, allWs lead = true ∧ itemsOk items
    ∧ s = (lead ++ spaced items)%string.
Proof.
  induction s as [|c s (lead & items & Hlead & Hok & ->)].
  - by exists "", [].
  - destruct (Js.isWhiteSpace c) eqn:Hc.
    + exists (String c lead), items. simpl. by rewrite Hc.
    + exists "". destruct lead as [|d lead].
      * destruct items as [|[w g] rest].
        -- exists [(String c "", "")]. repeat split; simpl; try done.
           by rewrite Hc.
        -- exists ((String c w, g) :: rest). destruct Hok as ([_ Hw] & Hrest).
           repeat split; simpl; try done; try tauto. by rewrite Hc.
      * exists ((String c "", String d lead) :: items).
        repeat split; simpl; try done. by rewrite Hc.
Qed.

Lemma trimStart_allWs g : allWs g = true → Js.trimStart g = "".
Proof.
  induction g as [|c g IH]; [done|]. simpl.
  intros [Hc Hg]%andb_true_iff. rewrite Hc. by apply IH.
Qed.

Lemma removeExtraSpaces_allWs g : allWs g = true → removeExtraSpaces g = "".
Proof.
  intros Hg. unfold removeExtraSpaces, Js.trim.
  destruct g as [|c g]; [done|].
  rewrite <- (append_nil_r (String c g)).
  rewrite (collapseWs_gap false _ "" Hg) by done. reflexivity.
Qed.

(** Words joined by single spaces are a line of words and gaps. *)
Lemma unwords_spaced words :
  Forall isWord words →
  ∃ items, itemsOk items ∧ map fst items = words
    ∧ spaced items = unwords words.
Proof.
  induction words as [|w rest IH]; intros Hall.
  - by exists [].
  - pose proof (Forall_inv Hall) as Hw. apply Forall_inv_tail in Hall.
    destruct (IH Hall) as (items & Hok & Hmap & Hsp).
    destruct rest as [|w' rest].
    + exists [(w, "")]. repeat split; simpl; try done; try apply Hw.
      by rewrite append_nil_r.
    + exists ((w, " ") :: items). repeat split; simpl; try done; try apply Hw.
      * by rewrite Hmap.
      * by rewrite Hsp.
Qed.

(** X17. [removeExtraSpaces] is idempotent, and the tokens of a line
    that is not blank are words: none is empty and none holds white
    space, so that a token that is defined is also truthy. *)
Theorem removeExtraSpaces_normal line :
  removeExtraSpaces (removeExtraSpaces line) = removeExtraSpaces line
  ∧ (Js.trim line ≠ "" →
     Forall isWord (Js.split " " (removeExtraSpaces line))).
Proof.
  destruct (spaced_exists line) as (lead & items & Hlead & Hok & ->).
  destruct items as [|item items].
  - simpl spaced. rewrite append_nil_r.
    rewrite (removeExtraSpaces_allWs _ Hlead). split; [done|].
    intros H. destruct H. unfold Js.trim.
    by rewrite (trimStart_allWs _ Hlead).
  - rewrite (removeExtraSpaces_spaced _ _ Hlead Hok) by done.
    pose proof (itemsOk_words _ Hok) as Hwords. split.
    + destruct (unwords_spaced _ Hwords) as (items' & Hok' & Hmap & Hsp).
      rewrite <- Hsp at 1. rewrite <- Hmap.
      change (spaced items') with ("" ++ spaced items')%string.
      apply removeExtraSpaces_spaced; [done..|].
      intros ->. done.
    + intros _. by rewrite split_unwords.
Qed.

End Normalization.

Lemma removeExtraSpaces_normal_witness :
  Forall isWord (Js.split " " (removeExtraSpaces "  scene   A  ->  Z:  ")).
Proof.
  apply (proj2 (removeExtraSpaces_normal "  scene   A  ->  Z:  ")).
  discriminate.
Defined.

(** ** The builders on the statements they are written for *)

Section Builders.

Implicit Types (s w label name : string) (cond target : option string).

Lemma noWs_app s1 s2 : noWs (s1 ++ s2) = noWs s1 && noWs s2.
Proof.
  induction s1 as [|c s1 IH]; [done|].
  rewrite append_cons. simpl. by rewrite IH, andb_assoc.
Qed.

Lemma replace_absent c rep s :
  Js.includes c s = false → Js.replace (String c "") rep s = s.
Proof.
  induction s as [|d s IH]; [done|]. simpl.
  intros [Hd Hs]%orb_false_iff.
  destruct (ascii_dec c d) as [->|_]; [by rewrite Ascii.eqb_refl in Hd|].
  by rewrite (IH Hs).
Qed.

Lemma replace_last_colon s :
  Js.includes ":" s = false → Js.replace ":" "" (s ++ ":") = s.
Proof.
  intros Hs.
  rewrite <- (append_nil_r s) at 2.
  apply (replace_first ":" "" s "" Hs).
Qed.

Lemma hasForbiddenInline_final_colon s :
  Js.includes ":" s = false → hasForbiddenInline (s ++ ":") = Ok false.
Proof.
  intros Hs. unfold hasForbiddenInline.
  change (s ++ ":")%string with (s ++ String ":" "")%string.
  by rewrite (split_app _ _ _ Hs).
Qed.

Lemma isWord_colon w : isWord w → isWord (w ++ ":").
Proof.
  intros [Hne Hw]. split; [|by rewrite noWs_app, Hw].
  intros E. destruct w; [done|]. rewrite append_cons in E. discriminate.
Qed.

Lemma itemsOk_cons w g (rest : list (string * string)) :
  isWord w → allWs g = true → g ≠ "" → itemsOk rest →
  itemsOk ((w, g) :: rest).
Proof.
  intros Hw Hg Hne Hrest. simpl.
  split; [done|]. split; [done|]. split; [by intros _|done].
Qed.

Lemma itemsOk_last w : isWord w → itemsOk [(w, "")].
Proof. intros Hw. simpl. split; [done|]. by repeat split. Qed.

Local Ltac items_ok :=
  repeat (apply itemsOk_cons; [by split|reflexivity|discriminate|]);
  repeat (apply itemsOk_cons; [done|reflexivity|discriminate|]);
  repeat (apply itemsOk_cons; [by split|reflexivity|discriminate|]);
  apply itemsOk_last; by (done || apply isWord_colon).

Lemma getParameter_condText label cond :
  Js.includes "<" label = false → Js.includes ">" label = false →
  (∀ c, cond = Some c → Js.includes ">" c = false) →
  getParameter (label ++ condText cond) = (label, cond).
Proof.
  intros Hlt Hgt Hc. destruct cond as [c|]; simpl.
  - rewrite <- (append_nil_r ">").
    rewrite (getParameter_token label c "" Hlt Hgt) by (by apply Hc).
    by rewrite append_nil_r.
  - rewrite append_nil_r. by apply getParameter_none.
Qed.

(** X18. [makeScene] on a scene statement: for a label that is a word
    without colon or angle bracket, an optional condition without white
    space, colon or closing bracket, and an optional target that is a
    word without colon, the statement
    [scene label<condition> -> target:] yields the scene with that
    label, that condition and that [nextScene], no predecessor, no
    choice and no dialogue. *)
Theorem makeScene_statement label cond target
    (Hlabel : isName label)
    (Hlt : Js.includes "<" label = false)
    (Hgt : Js.includes ">" label = false)
    (Hcond : ∀ c, cond = Some c →
                  noWs c = true ∧ Js.includes ":" c = false
                  ∧ Js.includes ">" c = false)
    (Htarget : ∀ t, target = Some t → isName t) :
  makeScene (sceneStatement label cond target)
  = Ok {| label := label; nextScene := target; previousScene := None;
          isEndingScene := false; dialogues := []; choices := None;
          condition := cond |}.
Proof.
  destruct Hlabel as [[Hne Hw] Hcolon].
  set (tok := (label ++ condText cond)%string).
  assert (isWord tok ∧ Js.includes ":" tok = false) as [Htok Htokc].
  { unfold tok. split; [split|].
    - by destruct label.
    - rewrite noWs_app, Hw. destruct cond as [c|]; [|done]. simpl.
      destruct (Hcond c eq_refl) as (Hc & _).
      by rewrite !noWs_app, Hc.
    - rewrite includes_app, Hcolon. destruct cond as [c|]; [|done]. simpl.
      destruct (Hcond c eq_refl) as (_ & Hc & _).
      by rewrite !includes_app, Hc. }
  assert (getParameter tok = (label, cond)) as Hparam.
  { apply getParameter_condText; [done..|]. intros c Hc. by apply Hcond. }
  unfold makeScene, sceneStatement. destruct target as [t|].
  - destruct (Htarget t eq_refl) as [[Htne Htw] Htc]. simpl pointerText.
    replace ("scene " ++ label ++ condText cond ++ (" -> " ++ t) ++ ":")%string
      with (("scene " ++ tok ++ " -> " ++ t) ++ ":")%string
      by (unfold tok; by rewrite !append_assoc).
    rewrite hasForbiddenInline_final_colon
      by (by rewrite !includes_app, Htokc, Htc).
    simpl mbind.
    replace (("scene " ++ tok ++ " -> " ++ t) ++ ":")%string
      with ("" ++ spaced [("scene", " "); (tok, " "); ("->", " ");
                          ((t ++ ":")%string, "")])%string
      by (simpl; by rewrite !append_assoc, !append_nil_r).
    rewrite (tokens_spaced ""
      [("scene", " "); (tok, " "); ("->", " "); ((t ++ ":")%string, "")]
      eq_refl ltac:(items_ok) ltac:(done)).
    simpl. rewrite (replace_absent _ _ _ Htokc), Hparam.
    rewrite (replace_last_colon _ Htc). by destruct t.
  - simpl pointerText.
    replace ("scene " ++ label ++ condText cond ++ "" ++ ":")%string
      with (("scene " ++ tok) ++ ":")%string
      by (unfold tok; by rewrite !append_assoc).
    rewrite hasForbiddenInline_final_colon
      by (by rewrite !includes_app, Htokc).
    simpl mbind.
    replace (("scene " ++ tok) ++ ":")%string
      with ("" ++ spaced [("scene", " "); ((tok ++ ":")%string, "")])%string
      by (simpl; by rewrite !append_assoc, !append_nil_r).
    rewrite (tokens_spaced ""
      [("scene", " "); ((tok ++ ":")%string, "")]
      eq_refl ltac:(items_ok) ltac:(done)).
    simpl. by rewrite (replace_last_colon _ Htokc), Hparam.
Qed.

(** X19. [makeCharacter] on a character statement: for a name that is
    a word without colon, [character name:] yields the character of
    that name without any emotion.  Angle brackets are part of the
    name: no parameter is extracted from it. *)
Theorem makeCharacter_statement name (Hname : isName name) :
  makeCharacter (characterStatement name)
  = Ok {| name := name; emotions := ∅ |}.
Proof.
  destruct Hname as [[Hne Hw] Hcolon].
  unfold makeCharacter, characterStatement.
  replace ("character " ++ name ++ ":")%string
    with (("character " ++ name) ++ ":")%string
    by (by rewrite !append_assoc).
  rewrite hasForbiddenInline_final_colon by (by rewrite !includes_app, Hcolon).
  simpl mbind.
  replace (("character " ++ name) ++ ":")%string
    with ("" ++ spaced [("character", " "); ((name ++ ":")%string, "")])%string
    by (simpl; by rewrite !append_assoc, !append_nil_r).
  rewrite (tokens_spaced ""
    [("character", " "); ((name ++ ":")%string, "")]
    eq_refl ltac:(items_ok) ltac:(done)).
  simpl. by rewrite (replace_last_colon _ Hcolon).
Qed.

(** X20. A declaration of one word only, the keyword without a label
    or a name behind it, never yields a scene or a character: whatever
    the white space around the word and whatever the word holds, both
    builders throw. *)
Theorem declaration_without_label lead w g
    (Hlead : allWs lead = true) (Hw : isWord w) (Hg : allWs g = true) :
  isOk (makeScene (lead ++ spaced [(w, g)])) = false
  ∧ isOk (makeCharacter (lead ++ spaced [(w, g)])) = false.
Proof.
  assert (Js.split " " (removeExtraSpaces (lead ++ spaced [(w, g)])) = [w])
    as Htok.
  { apply (tokens_spaced lead [(w, g)] Hlead); [|done].
    simpl. split; [done|]. split; [done|]. by split. }
  unfold makeScene, makeCharacter. rewrite Htok.
  by destruct (hasForbiddenInline _) as [[]|].
Qed.

(** X21. A character statement that carries text in its second
    colon-separated segment aborts the parse with the error of the
    characters, as a scene statement does with the error of the
    scenes. *)
Theorem character_inline_forbidden script pre line post st text
    (Hlines : getLines script = pre ++ line :: post)
    (Hpre : loop pre initial = Ok st)
    (Hkw : hasKeyword Keyword.Character line 0 = true)
    (Hseg : Js.split ":" line !! 1 = Some text)
    (Htext : Js.trim text ≠ "") :
  main script = Throw ForbiddenInlineCharacter.
Proof.
  apply (main_throw _ _ _ _ _ _ Hlines Hpre).
  rewrite (step_character _ _ Hkw).
  unfold makeCharacter, hasForbiddenInline. rewrite Hseg. simpl.
  by destruct (Js.trim text).
Qed.

End Builders.

Lemma makeScene_statement_witness :
  makeScene "scene intro<hasKey> -> outro:"
  = Ok {| label := "intro"; nextScene := Some "outro";
          previousScene := None; isEndingScene := false; dialogues := [];
          choices := None; condition := Some "hasKey" |}.
Proof.
  apply (makeScene_statement "intro" (Some "hasKey") (Some "outro"));
    try reflexivity.
  - by repeat split.
  - intros c [= <-]. by repeat split.
  - intros t [= <-]. by repeat split.
Defined.

Lemma makeCharacter_statement_witness :
  makeCharacter "character Bob<x>:"
  = Ok {| name := "Bob<x>"; emotions := ∅ |}.
Proof. apply (makeCharacter_statement "Bob<x>"). by repeat split. Defined.

Lemma declaration_without_label_witness :
  isOk (makeScene "scene:") = false ∧ isOk (makeCharacter "scene:") = false.
Proof.
  apply (declaration_without_label "" "scene:" ""); try reflexivity.
  by split.
Defined.

Lemma character_inline_forbidden_witness :
  main scriptCharacterInline = Throw ForbiddenInlineCharacter.
Proof.
  apply (character_inline_forbidden scriptCharacterInline
           ["scene A:"] "character Bob: the hero" [] openA " the hero");
    try reflexivity.
  discriminate.
Defined.

(** ** Parameters, once more *)

Section Brackets.

Implicit Types (s pre param post rest pat : string) (c : ascii).

(** X22. Only the first bracketed segment is a parameter: of a string
    [pre<param>post], with neither angle bracket in [pre] and no
    closing bracket in [param], [getParameter] returns [param] and the
    string without that segment; whatever [post] holds, further
    brackets included, stays in the string. *)
Theorem getParameter_first_bracket pre param post
    (Hlt : Js.includes "<" pre = false)
    (Hgt : Js.includes ">" pre = false)
    (Hparam : Js.includes ">" param = false) :
  getParameter (pre ++ "<" ++ param ++ ">" ++ post)
  = ((pre ++ post)%string, Some param).
Proof. by apply getParameter_token. Qed.

Lemma prefix_includes c pat : ∀ s,
  String.prefix pat s = true → Js.includes c pat = true →
  Js.includes c s = true.
Proof.
  induction pat as [|a pat IH]; intros s; [done|].
  destruct s as [|b s]; [done|]. simpl.
  destruct (ascii_dec a b) as [->|]; [|done].
  intros Hp [Hb|Hc]%orb_true_iff.
  - by rewrite Hb.
  - rewrite (IH s Hp Hc). apply orb_true_r.
Qed.

(** A pattern that holds a code unit absent from the string occurs
    nowhere in it. *)
Lemma replace_pattern_absent c pat rep s :
  Js.includes c pat = true → Js.includes c s = false →
  Js.replace pat rep s = s.
Proof.
  intros Hpat. induction s as [|d s IH]; intros Hs.
  - unfold Js.replace.
    destruct (String.prefix pat "") eqn:Hp; [|done].
    by rewrite (prefix_includes c pat "" Hp Hpat) in Hs.
  - unfold Js.replace; fold Js.replace.
    destruct (String.prefix pat (String d s)) eqn:Hp.
    + by rewrite (prefix_includes c pat _ Hp Hpat) in Hs.
    + simpl in Hs. apply orb_false_iff in Hs as [_ Hs]. by rewrite (IH Hs).
Qed.

(** X23. An opening bracket that is never closed: of a string
    [pre<rest] without any closing bracket, [getParameter] returns the
    string as it is and, for parameter, the text up to and with the
    opening bracket, not the text behind it. *)
Theorem getParameter_unclosed pre rest
    (Hlt : Js.includes "<" pre = false)
    (Hgt : Js.includes ">" (pre ++ "<" ++ rest) = false) :
  getParameter (pre ++ "<" ++ rest)
  = ((pre ++ "<" ++ rest)%string, Some (pre ++ "<")%string).
Proof.
  unfold getParameter.
  rewrite includes_app. simpl Js.includes at 2. rewrite orb_true_r.
  simpl negb. cbv iota.
  change (pre ++ "<" ++ rest)%string with (pre ++ String "<" rest)%string.
  rewrite (indexOf_app "<" pre rest Hlt).
  rewrite (indexOf_absent ">" (pre ++ String "<" rest) Hgt).
  assert (Js.substring (Z.of_nat (String.length pre) + 1) (-1)
            (pre ++ String "<" rest) = (pre ++ "<")%string) as ->.
  { unfold Js.substring, Js.clamp. rewrite length_append. simpl String.length.
    rewrite Z.max_l, Z.min_l by lia.
    rewrite Z.max_r, Z.min_l by lia.
    replace (Z.to_nat (Z.of_nat (String.length pre) + 1))
      with (String.length (pre ++ "<")) by (rewrite length_append; simpl; lia).
    simpl Z.to_nat. rewrite Nat.min_r, Nat.max_l by lia.
    rewrite Nat.sub_0_r. simpl Js.drop.
    change (pre ++ String "<" rest)%string with (pre ++ "<" ++ rest)%string.
    rewrite <- append_assoc. apply take_app. }
  f_equal. apply (replace_pattern_absent ">"); [|done].
  rewrite !includes_app. simpl. apply orb_true_r.
Qed.

End Brackets.

Lemma getParameter_first_bracket_witness :
  getParameter "a<b>c<d>" = ("ac<d>", Some "b").
Proof. apply (getParameter_first_bracket "a" "b" "c<d>"); reflexivity. Defined.

Lemma getParameter_unclosed_witness :
  getParameter "    choice<B" = ("    choice<B", Some "    choice<").
Proof. apply (getParameter_unclosed "    choice" "B"); reflexivity. Defined.

(** ** Emotion entries, once more *)

Section Emotions.

Implicit Types (c : Character) (line : string).

Lemma addEmotion_entry line c key path :
  emotionEntry line = Some (key, path) →
  addEmotion line (Some c)
  = Ok {| name := c.(name);
          emotions := if String.eqb key "__proto__" then c.(emotions)
                      else <[key := path]> c.(emotions) |}.
Proof.
  unfold emotionEntry, addEmotion, setProperty.
  destruct (Js.split ":" line !! 1) as [[|d p]|]; [done| |done].
  by intros [= <- <-].
Qed.

(** X24. The last emotion line for a name wins: when two emotion lines
    give the same key, other than [__proto__], the emotions after both
    are those before the first with the path of the second under that
    key. *)
Theorem emotion_overwritten line1 line2 c key path1 path2
    (H1 : emotionEntry line1 = Some (key, path1))
    (H2 : emotionEntry line2 = Some (key, path2))
    (Hkey : key ≠ "__proto__") :
  ∃ c1 c2,
    addEmotion line1 (Some c) = Ok c1
    ∧ addEmotion line2 (Some c1) = Ok c2
    ∧ c2.(name) = c.(name)
    ∧ c2.(emotions) = <[key := path2]> c.(emotions).
Proof.
  apply String.eqb_neq in Hkey.
  eexists _, _. rewrite (addEmotion_entry _ _ _ _ H1).
  split; [reflexivity|]. rewrite (addEmotion_entry _ _ _ _ H2).
  split; [reflexivity|]. simpl. rewrite Hkey.
  split; [done|]. apply insert_insert_eq.
Qed.

(** X25. An emotion line whose instruction is the keyword alone, with
    no name behind it, records its path under the key [undefined]. *)
Theorem emotion_without_name c lead w g path rest
    (Hlead : allWs lead = true) (Hw : isWord w) (Hg : allWs g = true)
    (Hcolon : Js.includes ":" (lead ++ spaced [(w, g)]) = false)
    (Hpath : Js.includes ":" path = false) (Hne : path ≠ "")
    (Hrest : segmentEnd rest) :
  addEmotion ((lead ++ spaced [(w, g)]) ++ ":" ++ path ++ rest) (Some c)
  = Ok {| name := c.(name);
          emotions := <["undefined" := Js.trim path]> c.(emotions) |}.
Proof.
  rewrite (addEmotion_line _ _ _ _ Hcolon Hpath Hrest).
  assert (Js.split " " (removeExtraSpaces (lead ++ spaced [(w, g)])) = [w])
    as ->.
  { apply (tokens_spaced lead [(w, g)] Hlead); [|done].
    simpl. split; [done|]. split; [done|]. by split. }
  by destruct path.
Qed.

End Emotions.

Lemma emotion_overwritten_witness :
  ∃ c1 c2,
    addEmotion "    emotion happy: a.png" (Some {| name := "Bob"; emotions := ∅ |})
    = Ok c1
    ∧ addEmotion "    emotion happy: b.png" (Some c1) = Ok c2
    ∧ c2.(name) = "Bob"
    ∧ c2.(emotions) = <["happy" := "b.png"]> ∅.
Proof.
  apply (emotion_overwritten "    emotion happy: a.png"
           "    emotion happy: b.png" {| name := "Bob"; emotions := ∅ |}
           "happy" "a.png" "b.png"); [reflexivity|reflexivity|discriminate].
Defined.

Lemma emotion_without_name_witness :
  addEmotion "    emotion: a.png" (Some {| name := "Bob"; emotions := ∅ |})
  = Ok {| name := "Bob";
          emotions := <["undefined" := Js.trim " a.png"]> ∅ |}.
Proof.
  apply (emotion_without_name {| name := "Bob"; emotions := ∅ |}
           "    " "emotion" "" " a.png" "");
    try reflexivity; [by split|discriminate|by left].
Defined.
